(** * YOLOv5-ShuffleNetv2: activation modules and the upload handler

    Shallow embedding of [models/activations.py] and of the [upload] route of
    [app.py].

    Tensors hold real numbers: every [torch] kernel is read as the
    function of real numbers it implements ([torch.sigmoid] as 1/(1+e^-x),
    [F.softplus] as ln(1+e^x) up to its threshold 20 and the identity
    above it); rounding and overflow are outside this model. *)

From Stdlib Require Import Reals Lra.
From stdpp Require Import base option list strings gmap.

(** ** Tensors *)

Module Tensors.

Local Open Scope R_scope.

(** A tensor is a nest of lists of equal depth; a 0-dimensional tensor (and a
    Python number used as an operand) is a [Scalar]. *)
#[local] Unset Elimination Schemes.
Inductive Tensor : Type :=
  | Scalar (v : R)
  | Dim (ts : list Tensor).
#[local] Set Elimination Schemes.

Section TensorInd.
Variable P : Tensor -> Prop.
Hypothesis HScalar : forall v, P (Scalar v).
Hypothesis HDim : forall ts, Forall P ts -> P (Dim ts).

Fixpoint Tensor_nested_ind (t : Tensor) : P t :=
  match t with
  | Scalar v => HScalar v
  | Dim ts =>
      HDim ts ((fix go (l : list Tensor) : Forall P l :=
                  match l with
                  | [] => @List.Forall_nil _ P
                  | u :: l' => @List.Forall_cons _ P u l' (Tensor_nested_ind u) (go l')
                  end) ts)
  end.
End TensorInd.

(** Elementwise application of a unary kernel. *)
Fixpoint tmap (f : R -> R) (t : Tensor) : Tensor :=
  match t with
  | Scalar v => Scalar (f v)
  | Dim ts => Dim (map (tmap f) ts)
  end.

(** Number of dimensions, read along the first entry of every level. *)
Fixpoint rank (t : Tensor) : nat :=
  match t with
  | Scalar _ => 0
  | Dim [] => 1
  | Dim (u :: _) => S (rank u)
  end.

(** [unsqueeze k t] puts [k] leading dimensions of size 1 in front of [t]. *)
Fixpoint unsqueeze (k : nat) (t : Tensor) : Tensor :=
  match k with
  | O => t
  | S k' => Dim [unsqueeze k' t]
  end.

(** Pairs two lists of equal length entry by entry; a failure of [g] or a
    length mismatch is an error. *)
Fixpoint zipM {A B C : Type} (g : A -> B -> option C) (la : list A) (lb : list B)
    {struct la} : option (list C) :=
  match la, lb with
  | [], [] => Some []
  | a :: la', b :: lb' => c ← g a b; cs ← zipM g la' lb'; Some (c :: cs)
  | _, _ => None
  end.

(** One level of torch's broadcasting: a dimension of size 1 is stretched to
    the size of the other operand, equal sizes are paired, anything else is a
    shape error ([None]). *)
Definition blevel {A : Type} (g : A -> A -> option A) (la lb : list A)
    : option (list A) :=
  match la, lb with
  | [a0], _ => mapM (g a0) lb
  | _, [b0] => mapM (fun ai => g ai b0) la
  | _, _ => zipM g la lb
  end.

(** Binary elementwise kernel on two tensors of the same rank. *)
Fixpoint bcast (f : R -> R -> R) (a b : Tensor) {struct a} : option Tensor :=
  match a, b with
  | Scalar x, Scalar y => Some (Scalar (f x y))
  | Dim la, Dim lb => Dim <$> blevel (bcast f) la lb
  | _, _ => None
  end.

(** A binary operator as Python evaluates it: a number operand reaches every
    entry, operands of different rank are aligned on their trailing
    dimensions. *)
Definition tbin (f : R -> R -> R) (a b : Tensor) : option Tensor :=
  match a, b with
  | Scalar x, _ => Some (tmap (f x) b)
  | _, Scalar y => Some (tmap (fun v => f v y) a)
  | _, _ => bcast f (unsqueeze (rank b - rank a) a) (unsqueeze (rank a - rank b) b)
  end.

(** Shapes.  [has_shape t s] checks that [t] is a well-formed tensor of shape
    [s]. *)
Fixpoint has_shape (t : Tensor) (s : list nat) {struct t} : bool :=
  match t, s with
  | Scalar _, [] => true
  | Dim ts, n :: s' => (length ts =? n)%nat && forallb (fun u => has_shape u s') ts
  | _, _ => false
  end.

(** [t[i0, i1, ...]]: the entry at a full index, [None] out of range. *)
Fixpoint tget (t : Tensor) (idx : list nat) {struct idx} : option R :=
  match idx, t with
  | [], Scalar v => Some v
  | i :: idx', Dim ts => u ← ts !! i; tget u idx'
  | _, _ => None
  end.

(** The entry of an operand that broadcasting pairs with index [idx] of the
    result: along a dimension of size 1 the only entry is used. *)
Definition pick {A : Type} (ts : list A) (i : nat) : option A :=
  if (length ts =? 1)%nat then ts !! 0%nat else ts !! i.

Fixpoint bget (t : Tensor) (idx : list nat) {struct idx} : option R :=
  match idx, t with
  | [], Scalar v => Some v
  | i :: idx', Dim ts => u ← pick ts i; bget u idx'
  | _, _ => None
  end.

(** Size of a result dimension under broadcasting, and the shape of the
    result for two shapes of the same length. *)
Definition bdim (m n : nat) : option nat :=
  if (m =? 1)%nat then Some n
  else if (n =? 1)%nat then Some m
  else if (m =? n)%nat then Some m
  else None.

Fixpoint bshape (sa sb : list nat) : option (list nat) :=
  match sa, sb with
  | [], [] => Some []
  | m :: sa', n :: sb' => d ← bdim m n; sc ← bshape sa' sb'; Some (d :: sc)
  | _, _ => None
  end.

Definition tadd : Tensor -> Tensor -> option Tensor := tbin Rplus.
Definition tsub : Tensor -> Tensor -> option Tensor := tbin Rminus.
Definition tmul : Tensor -> Tensor -> option Tensor := tbin Rmult.
Definition tdiv : Tensor -> Tensor -> option Tensor := tbin Rdiv.

(** [torch.max(a, b)] on two tensors: the entrywise maximum. *)
Definition tmax : Tensor -> Tensor -> option Tensor := tbin Rmax.

(** [t[i0, ..., ik]] with a partial index: the sub-tensor there. *)
Fixpoint tat (t : Tensor) (idx : list nat) {struct idx} : option Tensor :=
  match idx with
  | [] => Some t
  | i :: idx' =>
      match t with
      | Scalar _ => None
      | Dim ts => u ← ts !! i; tat u idx'
      end
  end.

(** [t.sum()]: the sum of all entries. *)
Fixpoint tsum (t : Tensor) : R :=
  match t with
  | Scalar v => v
  | Dim ts => foldr Rplus 0 (map tsum ts)
  end.

(** [torch.full(size, v)]; [torch.ones] and [torch.zeros] are its instances
    at 1 and 0. *)
Definition torch_full (size : list nat) (v : R) : Tensor :=
  foldr (fun n t => Dim (replicate n t)) (Scalar v) size.

Definition torch_ones (size : list nat) : Tensor := torch_full size 1.
Definition torch_zeros (size : list nat) : Tensor := torch_full size 0.

(** Entrywise sum of a non-empty list of tensors of one shape. *)
Fixpoint tsum_list (acc : Tensor) (ts : list Tensor) : option Tensor :=
  match ts with
  | [] => Some acc
  | u :: ts' => a ← bcast Rplus acc u; tsum_list a ts'
  end.

(** [t.mean(dim=dim, keepdims=True)]: the sub-tensors along [dim] are summed
    entrywise and divided by their number; the dimension stays, with size 1.
    A [dim] beyond the rank is an error.  The mean over an empty dimension is
    not a number and has no counterpart here ([None]). *)
Fixpoint torch_mean (dim : nat) (t : Tensor) {struct t} : option Tensor :=
  match t with
  | Scalar _ => None
  | Dim ts =>
      match dim with
      | O =>
          match ts with
          | [] => None
          | u :: us =>
              s ← tsum_list u us;
              Some (Dim [tmap (fun v => v / INR (length ts)) s])
          end
      | S d => Dim <$> mapM (torch_mean d) ts
      end
  end.

End Tensors.

(** ** models/activations.py *)

Module Activations.
Import Tensors.

Local Open Scope R_scope.

(** *** Kernels of the tensor library, entry by entry *)

(** [torch.sigmoid] *)
Definition sigmoid (x : R) : R := 1 / (1 + exp (- x)).

(** [F.softplus] with its defaults [beta = 1] and [threshold = 20]:
    ln(1 + exp(x)), and [x] itself where [x * beta > threshold]. *)
Definition softplus (x : R) : R :=
  if Rlt_dec 20 x then x else ln (1 + exp x).

(** [F.hardtanh(input, min_val, max_val)] clamps every entry to
    [[min_val, max_val]]. *)
Definition hardtanh (min_val max_val x : R) : R := Rmin (Rmax x min_val) max_val.

Definition torch_sigmoid : Tensor -> Tensor := tmap sigmoid.
Definition torch_tanh : Tensor -> Tensor := tmap tanh.
Definition F_softplus : Tensor -> Tensor := tmap softplus.
Definition F_hardtanh (t : Tensor) (min_val max_val : R) : Tensor :=
  tmap (hardtanh min_val max_val) t.

(** *** torch.autograd.Function *)

(** The context object handed to [forward] and [backward]. *)
Record Ctx : Type := { saved_tensors : list Tensor }.

Definition new_ctx : Ctx := {| saved_tensors := [] |}.

Definition save_for_backward (ctx : Ctx) (x : Tensor) : Ctx :=
  {| saved_tensors := [x] |}.

(** [F.apply(x)] runs [forward] on a fresh context and hands back its
    output. *)
Definition Function_apply (fwd : Ctx -> Tensor -> Ctx * option Tensor)
    (x : Tensor) : option Tensor :=
  (fwd new_ctx x).2.

(** *** The activation modules *)

Module SiLU.
Definition forward (x : Tensor) : option Tensor :=
  tmul x (torch_sigmoid x).
End SiLU.

Module MemoryEfficientSwish.
Module F.
Definition forward (ctx : Ctx) (x : Tensor) : Ctx * option Tensor :=
  let ctx := save_for_backward ctx x in
  (ctx, tmul x (torch_sigmoid x)).

Definition backward (ctx : Ctx) (grad_output : Tensor) : option Tensor :=
  x ← saved_tensors ctx !! 0%nat;
  let sx := torch_sigmoid x in
  a ← tsub (Scalar 1) sx;
  b ← tmul x a;
  c ← tadd (Scalar 1) b;
  d ← tmul sx c;
  tmul grad_output d.
End F.

Definition forward (x : Tensor) : option Tensor :=
  Function_apply F.forward x.
End MemoryEfficientSwish.

Module Hardswish.
Definition forward (x : Tensor) : option Tensor :=
  a ← tadd x (Scalar 3);
  b ← tmul x (F_hardtanh a 0 6);
  tdiv b (Scalar 6).
End Hardswish.

Module Mish.
Definition forward (x : Tensor) : option Tensor :=
  tmul x (torch_tanh (F_softplus x)).
End Mish.

Module MemoryEfficientMish.
Module F.
Definition forward (ctx : Ctx) (x : Tensor) : Ctx * option Tensor :=
  let ctx := save_for_backward ctx x in
  (ctx, tmul x (torch_tanh (F_softplus x))).

Definition backward (ctx : Ctx) (grad_output : Tensor) : option Tensor :=
  x ← saved_tensors ctx !! 0%nat;
  let sx := torch_sigmoid x in
  let fx := torch_tanh (F_softplus x) in
  a ← tmul x sx;
  b ← tmul fx fx;
  c ← tsub (Scalar 1) b;
  d ← tmul a c;
  e ← tadd fx d;
  tmul grad_output e.
End F.

Definition forward (x : Tensor) : option Tensor :=
  Function_apply F.forward x.
End MemoryEfficientMish.

(** [AconC]: the three learnable parameters, each created with shape
    [(1, c1, 1, 1)]. *)
Module AconC.
Record t : Type := { p1 : Tensor; p2 : Tensor; beta : Tensor }.

Definition forward (self : t) (x : Tensor) : option Tensor :=
  d ← tsub (p1 self) (p2 self);
  dpx ← tmul d x;
  bd ← tmul (beta self) dpx;
  m ← tmul dpx (torch_sigmoid bd);
  q ← tmul (p2 self) x;
  tadd m q.
End AconC.

(** The variant of [Hardswish.forward] kept in its comment,
    [x * F.hardsigmoid(x)]; [F.hardsigmoid] is 0 up to -3, 1 from 3 on and
    x/6 + 1/2 in between. *)
Definition hardsigmoid (x : R) : R :=
  if Rle_dec x (-3) then 0
  else if Rle_dec 3 x then 1
  else x / 6 + 1 / 2.

Definition F_hardsigmoid : Tensor -> Tensor := tmap hardsigmoid.

Definition Hardswish_forward_hardsigmoid (x : Tensor) : option Tensor :=
  tmul x (F_hardsigmoid x).

(** [AconC.__init__(c1)]: [p1] and [p2] are drawn by [torch.randn], here
    arguments; [beta] starts as ones. *)
Definition AconC_init (c1 : nat) (p1_randn p2_randn : Tensor) : AconC.t :=
  {| AconC.p1 := p1_randn;
     AconC.p2 := p2_randn;
     AconC.beta := torch_ones [1; c1; 1; 1]%nat |}.

(** [FReLU]: the depthwise convolution and the batch normalisation are
    modules of the tensor library, kept as the functions they apply. *)
Module FReLU.
Record t : Type := {
  conv : Tensor -> option Tensor;
  bn : Tensor -> option Tensor;
}.

Definition forward (self : t) (x : Tensor) : option Tensor :=
  c ← conv self x;
  tx ← bn self c;
  tmax x tx.
End FReLU.

(** [MetaAconC]: [fc1] and [fc2] are [nn.Conv2d] modules, kept as the
    functions they apply. *)
Module MetaAconC.
Record t : Type := {
  p1 : Tensor;
  p2 : Tensor;
  fc1 : Tensor -> option Tensor;
  fc2 : Tensor -> option Tensor;
}.

Definition forward (self : t) (x : Tensor) : option Tensor :=
  y ← torch_mean 2 x;
  y ← torch_mean 3 y;
  z ← fc1 self y;
  z ← fc2 self z;
  let beta := torch_sigmoid z in
  d ← tsub (p1 self) (p2 self);
  dpx ← tmul d x;
  bd ← tmul beta dpx;
  m ← tmul dpx (torch_sigmoid bd);
  q ← tmul (p2 self) x;
  tadd m q.
End MetaAconC.

(** *** Closed forms the activations are compared with *)

Definition silu (x : R) : R := x * sigmoid x.
Definition silu' (x : R) : R := sigmoid x * (1 + x * (1 - sigmoid x)).
Definition mish (x : R) : R := x * tanh (softplus x).

(** Hard-swish by cases: zero below -3, the identity above 3, a parabola in
    between. *)
Definition hardswish (x : R) : R :=
  if Rle_dec x (-3) then 0
  else if Rle_dec 3 x then x
  else x * (x + 3) / 6.

(** [k] is piecewise linear: away from finitely many knots it is affine. *)
Definition affine_on (k : R -> R) (lo hi : R) : Prop :=
  exists a b, forall x, lo < x < hi -> k x = a * x + b.

Definition piecewise_linear (k : R -> R) : Prop :=
  exists knots : list R,
    forall lo hi, lo < hi -> (forall p, p ∈ knots -> ~ (lo < p < hi)) ->
      affine_on k lo hi.

End Activations.

(** ** app.py: the upload route *)

Module App.

(** Values of the JSON object that [jsonify] serialises. *)
Inductive json : Type :=
  | JStr (s : string)
  | JInt (n : Z).

(** What the handler calls and does not define: Python built-ins, the
    [requests], [base64], PIL, numpy and OpenCV libraries, and the detector
    [service.app_detect] of [detect.py].  A call that can raise returns
    [inl] of the exception; a call that touches the network, the filesystem
    or the loaded model also threads the [World]. *)
Class Env : Type := {
  PyFloat : Type;
  Image : Type;
  NdArray : Type;
  Exc : Type;
  World : Type;
  (** raised by [float(None)] and [base64.b64decode(None)] *)
  TypeError : Exc;
  (** [float(s)] on a string *)
  parse_float : string -> Exc + PyFloat;
  (** the directory that holds [app.py] *)
  father_path : string;
  (** [req.get(url).content] *)
  requests_get : string -> World -> (Exc + list Byte.byte) * World;
  (** [base64.b64decode(s)] on a string *)
  b64decode : string -> Exc + list Byte.byte;
  (** [Image.open(BytesIO(b))] *)
  Image_open : list Byte.byte -> Exc + Image;
  np_asarray : Image -> NdArray;
  (** [cv2.cvtColor(a, cv2.COLOR_BGR2RGB)] *)
  cvtColor_BGR2RGB : NdArray -> Exc + NdArray;
  (** [cv2.imwrite(path, a)] *)
  imwrite : string -> NdArray -> World -> (Exc + bool) * World;
  (** [service.app_detect(re_conf)]: annotated image, label string, count *)
  app_detect : PyFloat -> World -> (Exc + NdArray * string * Z) * World;
  (** [Image.fromarray(a, 'RGB')] *)
  Image_fromarray_RGB : NdArray -> Exc + Image;
  (** [img.save(buf, format='JPEG'); buf.getvalue()] *)
  save_JPEG : Image -> Exc + list Byte.byte;
  (** [base64.b64encode(b).decode('ascii')] *)
  b64encode_ascii : list Byte.byte -> string;
}.

Section Handler.
Context `{Env}.

(** The calls that reach outside the process, as they are made. *)
Inductive Call : Type :=
  | Call_requests_get (url : string)
  | Call_imwrite (path : string) (img : NdArray)
  | Call_app_detect (re_conf : PyFloat).

Record State : Type := { world : World; calls : list Call }.

(** Computations of the handler: they may raise, and they change the
    state; what was done before an exception stays done. *)
Definition M (A : Type) : Type := State -> (Exc + A) * State.

#[local] Instance M_ret : MRet M := fun A a st => (inr a, st).
#[local] Instance M_bind : MBind M := fun A B k m st =>
  match m st with
  | (inl e, st') => (inl e, st')
  | (inr a, st') => k a st'
  end.

(** A library call that does not touch the world. *)
Definition pure_call {A : Type} (r : Exc + A) : M A := fun st => (r, st).

(** A library call on the world, recorded in [calls]. *)
Definition world_call {A : Type} (c : Call) (f : World -> (Exc + A) * World)
    : M A :=
  fun st =>
    let '(r, w) := f (world st) in
    (r, {| world := w; calls := calls st ++ [c] |}).

(** [float(v)] where [v] comes from [request.form.get]. *)
Definition py_float (v : option string) : Exc + PyFloat :=
  match v with
  | None => inl TypeError
  | Some s => parse_float s
  end.

(** [base64.b64decode(v)] where [v] comes from [request.form.get]. *)
Definition base64_b64decode (v : option string) : Exc + list Byte.byte :=
  match v with
  | None => inl TypeError
  | Some s => b64decode s
  end.

(** Truth value of [request.form.get(...)] in an [if]: a missing field
    ([None]) and the empty string are false. *)
Definition truthy (v : option string) : bool :=
  match v with
  | None => false
  | Some s => negb (String.eqb s "")
  end.

(** step 1 of [upload], the [if image_link: ... else: ...] statement *)
Definition receive_image (file image_link : option string) : M unit :=
  if truthy image_link then
    content ← world_call (Call_requests_get (default "" image_link))
                (requests_get (default "" image_link));
    image ← pure_call (Image_open content);
    mret ()
  else
    raw ← pure_call (base64_b64decode file);
    image ← pure_call (Image_open raw);
    let dirs := (father_path +:+ "/mydata/images/test/1.png")%string in
    img ← pure_call (cvtColor_BGR2RGB (np_asarray image));
    _ ← world_call (Call_imwrite dirs img) (imwrite dirs img);
    mret ().

(** The handler of [POST /detect/imageDetect]; [form] is
    [request.form]. *)
Definition upload (form : gmap string string) : M (gmap string json) :=
  let re_conf := form !! "re_conf" in
  re_conf ← pure_call (py_float re_conf);
  let file := form !! "imageBase64Code" in
  let image_link := form !! "imageLink" in
  _ ← receive_image file image_link;
  '(image_array, re_label, num) ← world_call (Call_app_detect re_conf)
                                    (app_detect re_conf);
  img ← pure_call (cvtColor_BGR2RGB image_array);
  img ← pure_call (Image_fromarray_RGB img);
  img_byte_array ← pure_call (save_JPEG img);
  let image_info := b64encode_ascii img_byte_array in
  mret ({[ "image_info" := JStr image_info;
           "re_label" := JStr re_label;
           "num" := JInt num ]} : gmap string json).
End Handler.

(** A stand-in environment on which the handler can be run: one image URL
    answers, one base64 text decodes, and the detector reports on the file
    it finds on disk. *)
Definition demo_env : Env := {|
  PyFloat := Z;
  Image := list Byte.byte;
  NdArray := list Byte.byte;
  Exc := string;
  World := list (string * list Byte.byte);
  TypeError := "TypeError";
  parse_float := fun s =>
    if String.eqb s "0.25" then inr 25%Z else inl "ValueError";
  father_path := "/srv/app";
  requests_get := fun url w =>
    if String.eqb url "http://cam/1.jpg" then (inr [Byte.x02], w)
    else (inl "ConnectionError", w);
  b64decode := fun s =>
    if String.eqb s "AQ==" then inr [Byte.x01] else inl "binascii.Error";
  Image_open := fun b =>
    match b with [] => inl "UnidentifiedImageError" | _ => inr b end;
  np_asarray := fun i => i;
  cvtColor_BGR2RGB := fun a => inr a;
  imwrite := fun path a w => (inr true, (path, a) :: w);
  app_detect := fun c w =>
    match w with
    | [] => (inl "no images", w)
    | (_, a) :: _ => (inr (a, "person", 1%Z), w)
    end;
  Image_fromarray_RGB := fun a => inr a;
  save_JPEG := fun i => inr i;
  b64encode_ascii := fun b =>
    match b with [Byte.x01] => "AQ==" | [Byte.x02] => "Ag==" | _ => "" end;
|}.

(** The disk of [demo_env] after an earlier upload of the image [x01]. *)
Definition demo_disk : list (string * list Byte.byte) :=
  [("/srv/app/mydata/images/test/1.png", [Byte.x01])].

Definition demo_state : @State demo_env :=
  {| world := demo_disk : @World demo_env; calls := [] |}.

(** Two requests: one that names a remote image, one that carries the image
    as base64 text. *)
Definition link_form : gmap string string :=
  {[ "re_conf" := "0.25"; "imageLink" := "http://cam/1.jpg" ]}.

Definition base64_form : gmap string string :=
  {[ "re_conf" := "0.25"; "imageBase64Code" := "AQ==" ]}.

(** The same stand-in on a disk that cannot be written: [cv2.imwrite]
    returns [False] and leaves the disk as it is. *)
Definition readonly_env : Env := {|
  PyFloat := Z;
  Image := list Byte.byte;
  NdArray := list Byte.byte;
  Exc := string;
  World := list (string * list Byte.byte);
  TypeError := "TypeError";
  parse_float := fun s =>
    if String.eqb s "0.25" then inr 25%Z else inl "ValueError";
  father_path := "/srv/app";
  requests_get := fun url w =>
    if String.eqb url "http://cam/1.jpg" then (inr [Byte.x02], w)
    else (inl "ConnectionError", w);
  b64decode := fun s =>
    if String.eqb s "AQ==" then inr [Byte.x01] else inl "binascii.Error";
  Image_open := fun b =>
    match b with [] => inl "UnidentifiedImageError" | _ => inr b end;
  np_asarray := fun i => i;
  cvtColor_BGR2RGB := fun a => inr a;
  imwrite := fun path a w => (inr false, w);
  app_detect := fun c w =>
    match w with
    | [] => (inl "no images", w)
    | (_, a) :: _ => (inr (a, "person", 1%Z), w)
    end;
  Image_fromarray_RGB := fun a => inr a;
  save_JPEG := fun i => inr i;
  b64encode_ascii := fun b =>
    match b with [Byte.x01] => "AQ==" | [Byte.x02] => "Ag==" | _ => "" end;
|}.

(** Its disk with the image [x02] left by an earlier upload, and empty. *)
Definition readonly_state : @State readonly_env :=
  {| world := ([("/srv/app/mydata/images/test/1.png", [Byte.x02])]
               : list (string * list Byte.byte)) : @World readonly_env;
     calls := [] |}.

Definition readonly_empty_state : @State readonly_env :=
  {| world := ([] : list (string * list Byte.byte)) : @World readonly_env;
     calls := [] |}.

End App.

(** ** Facts about tensors *)

Module TensorFacts.
Import Tensors.
Local Open Scope R_scope.

Lemma tmap_ext (f g : R -> R) (t : Tensor) :
  (forall v, f v = g v) -> tmap f t = tmap g t.
Proof.
  intros Hfg. induction t as [v | ts IH] using Tensor_nested_ind; simpl.
  - by rewrite Hfg.
  - f_equal. induction IH as [| u ts Hu _ IHts]; simpl; [done | by f_equal].
Qed.

Lemma tmap_tmap (f g : R -> R) (t : Tensor) :
  tmap f (tmap g t) = tmap (fun v => f (g v)) t.
Proof.
  induction t as [v | ts IH] using Tensor_nested_ind; simpl; [done |].
  f_equal. induction IH as [| u ts Hu _ IHts]; simpl; [done | by f_equal].
Qed.

Lemma rank_tmap (f : R -> R) (t : Tensor) : rank (tmap f t) = rank t.
Proof.
  induction t as [v | ts IH] using Tensor_nested_ind; simpl; [done |].
  destruct IH as [| u ts Hu _]; simpl; [done | by rewrite Hu].
Qed.

(** Two tensors obtained entrywise from the same tensor have the same shape:
    the kernel pairs their entries and never fails. *)
Lemma bcast_tmap2 (f : R -> R -> R) (g h : R -> R) (t : Tensor) :
  bcast f (tmap g t) (tmap h t) = Some (tmap (fun v => f (g v) (h v)) t).
Proof.
  induction t as [v | ts IH] using Tensor_nested_ind; simpl; [done |].
  destruct IH as [| u ts Hu Hts]; simpl; [done |].
  destruct Hts as [| u' ts Hu' Hts]; simpl.
  - by rewrite Hu.
  - rewrite Hu, Hu'. simpl.
    assert (zipM (bcast f) (map (tmap g) ts) (map (tmap h) ts)
            = Some (map (tmap (fun v => f (g v) (h v))) ts)) as ->; [| done].
    induction Hts as [| w ts Hw _ IHts]; simpl; [done |].
    by rewrite Hw, IHts.
Qed.

Lemma tbin_tmap2 (f : R -> R -> R) (g h : R -> R) (t : Tensor) :
  tbin f (tmap g t) (tmap h t) = Some (tmap (fun v => f (g v) (h v)) t).
Proof.
  destruct t as [v | ts]; [done |].
  change (tbin f (tmap g (Dim ts)) (tmap h (Dim ts))) with
    (bcast f (unsqueeze (rank (tmap h (Dim ts)) - rank (tmap g (Dim ts))) (tmap g (Dim ts)))
             (unsqueeze (rank (tmap g (Dim ts)) - rank (tmap h (Dim ts))) (tmap h (Dim ts)))).
  rewrite !rank_tmap, Nat.sub_diag. apply bcast_tmap2.
Qed.

Lemma tmap_id (t : Tensor) : tmap (fun v => v) t = t.
Proof.
  induction t as [v | ts IH] using Tensor_nested_ind; simpl; [done |].
  f_equal. induction IH as [| u ts Hu _ IHts]; simpl; [done | by f_equal].
Qed.

Lemma tbin_self_l (f : R -> R -> R) (h : R -> R) (t : Tensor) :
  tbin f t (tmap h t) = Some (tmap (fun v => f v (h v)) t).
Proof. rewrite <- (tmap_id t) at 1. apply tbin_tmap2. Qed.

Lemma tbin_scalar_l (f : R -> R -> R) (c : R) (t : Tensor) :
  tbin f (Scalar c) t = Some (tmap (f c) t).
Proof. done. Qed.

Lemma tbin_scalar_r (f : R -> R -> R) (c : R) (t : Tensor) :
  tbin f t (Scalar c) = Some (tmap (fun v => f v c) t).
Proof. by destruct t. Qed.

(** *** One level of broadcasting *)

Section Level.
Context {A : Type} (g : A -> A -> option A).

Lemma pick_elem_of (l : list A) (i : nat) (a : A) : pick l i = Some a -> a ∈ l.
Proof.
  unfold pick. destruct (length l =? 1)%nat; intros H;
    by eapply list_elem_of_lookup_2.
Qed.

Lemma pick_lookup (l : list A) (i : nat) (a : A) :
  l !! i = Some a -> pick l i = Some a.
Proof.
  unfold pick. destruct (Nat.eqb_spec (length l) 1) as [Hl | _]; [| done].
  destruct l as [| a0 [| a1 l]]; try done.
  destruct i; [done |]. by intros [=].
Qed.

Lemma zipM_Some (la lb lc : list A) :
  zipM g la lb = Some lc ->
  length la = length lc /\ length lb = length lc /\
  forall i c, lc !! i = Some c ->
    exists a b, la !! i = Some a /\ lb !! i = Some b /\ g a b = Some c.
Proof.
  revert lb lc. induction la as [| a la IH]; intros [| b lb] lc; simpl; try done.
  - intros [= <-]. repeat split; try done.
  - destruct (g a b) as [c |] eqn:Hc; simpl; [| done].
    destruct (zipM g la lb) as [cs |] eqn:Hcs; simpl; [| done].
    intros [= <-]. destruct (IH _ _ Hcs) as (Hla & Hlb & Hi).
    repeat split; simpl; [by f_equal | by f_equal |].
    intros [| i] c'; simpl; [intros [= <-]; eauto | apply Hi].
Qed.

Lemma zipM_success (P : A -> Prop) (la lb : list A) :
  length la = length lb ->
  (forall i a b, la !! i = Some a -> lb !! i = Some b ->
     exists c, g a b = Some c /\ P c) ->
  exists lc, zipM g la lb = Some lc /\ length lc = length la /\ Forall P lc.
Proof.
  revert lb. induction la as [| a la IH]; intros [| b lb] Hlen Hg; simpl in *;
    try done.
  - by exists [].
  - destruct (Hg 0%nat a b) as (c & -> & Hc); [done | done |].
    destruct (IH lb) as (cs & -> & Hl & Hcs); [by injection Hlen | |].
    { intros i. apply (Hg (S i)). }
    exists (c :: cs). simpl. repeat split; [by f_equal | by constructor].
Qed.

Lemma mapM_success (P : A -> Prop) (h : A -> option A) (l : list A) :
  (forall a, a ∈ l -> exists c, h a = Some c /\ P c) ->
  exists lc, mapM h l = Some lc /\ length lc = length l /\ Forall P lc.
Proof.
  induction l as [| a l IH]; intros Hh.
  - by exists [].
  - destruct (Hh a) as (c & Hc & HP); [by left |].
    destruct IH as (cs & Hcs & Hl & HPs); [intros ? ?; apply Hh; by right |].
    exists (c :: cs). split; [| split; [simpl; by f_equal | by constructor]].
    apply mapM_Some. constructor; [done | by apply mapM_Some].
Qed.

Lemma blevel_Some (la lb lc : list A) :
  blevel g la lb = Some lc ->
  bdim (length la) (length lb) = Some (length lc) /\
  forall i c, lc !! i = Some c ->
    exists a b, pick la i = Some a /\ pick lb i = Some b /\ g a b = Some c.
Proof.
  unfold blevel. intros H.
  destruct la as [| a0 [| a1 la]].
  - destruct lb as [| b0 [| b1 lb]]; simpl in H.
    + injection H as <-. by split.
    + injection H as <-. by split.
    + done.
  - apply mapM_Some in H. split.
    + simpl. by rewrite (Forall2_length _ _ _ H).
    + intros i c Hc. destruct (Forall2_lookup_r _ _ _ _ _ H Hc) as (b & Hb & Hg).
      exists a0, b. split; [done |]. split; [by apply pick_lookup | done].
  - destruct lb as [| b0 [| b1 lb]].
    + done.
    + apply mapM_Some in H. split.
      * simpl. by rewrite <- (Forall2_length _ _ _ H).
      * intros i c Hc. destruct (Forall2_lookup_r _ _ _ _ _ H Hc) as (a & Ha & Hg).
        exists a, b0. split; [by apply pick_lookup | done].
    + apply zipM_Some in H as (Hla & Hlb & Hi). split.
      * unfold bdim. rewrite Hla, Hlb. simpl in Hla. rewrite <- Hla.
        simpl. by rewrite Nat.eqb_refl.
      * intros i c Hc. destruct (Hi i c Hc) as (a & b & Ha & Hb & Hg).
        exists a, b. split; [by apply pick_lookup |].
        split; [by apply pick_lookup | done].
Qed.

Lemma blevel_success (P : A -> Prop) (la lb : list A) (d : nat) :
  bdim (length la) (length lb) = Some d ->
  (forall a b, a ∈ la -> b ∈ lb -> exists c, g a b = Some c /\ P c) ->
  exists lc, blevel g la lb = Some lc /\ length lc = d /\ Forall P lc.
Proof.
  unfold blevel, bdim. intros Hd Hg.
  destruct la as [| a0 [| a1 la]].
  - destruct lb as [| b0 [| b1 lb]]; simpl in *.
    + injection Hd as <-. by exists [].
    + injection Hd as <-. by exists [].
    + done.
  - simpl in Hd. injection Hd as <-.
    apply mapM_success. intros b Hb. apply Hg; [by left | done].
  - destruct lb as [| b0 [| b1 lb]]; simpl in Hd.
    + done.
    + injection Hd as <-.
      apply (mapM_success P (fun ai => g ai b0)). intros a Ha.
      apply Hg; [done | by left].
    + destruct (Nat.eqb_spec (length la) (length lb)) as [Hl | _]; [| done].
      injection Hd as <-.
      apply zipM_success; [simpl; by rewrite Hl |].
      intros i a b Ha Hb.
      apply Hg; by eapply list_elem_of_lookup_2.
Qed.
End Level.

(** *** Shapes and entries of a broadcast result *)

Lemma has_shape_Dim (ts : list Tensor) (n : nat) (s : list nat) :
  has_shape (Dim ts) (n :: s) = true <->
  length ts = n /\ Forall (fun u => has_shape u s = true) ts.
Proof.
  simpl. rewrite andb_true_iff, Nat.eqb_eq, forallb_forall, Forall_forall.
  split; intros [Hl Hf]; (split; [done |]); intros u Hu; apply Hf;
    by apply list_elem_of_In.
Qed.

Lemma has_shape_Scalar_inv (t : Tensor) : has_shape t [] = true -> exists v, t = Scalar v.
Proof. destruct t; [eauto | done]. Qed.

Lemma has_shape_Dim_inv (t : Tensor) (n : nat) (s : list nat) :
  has_shape t (n :: s) = true ->
  exists ts, t = Dim ts /\ length ts = n /\ Forall (fun u => has_shape u s = true) ts.
Proof.
  destruct t as [v | ts]; [done |]. intros H%has_shape_Dim. by exists ts.
Qed.

Lemma bdim_one (m n : nat) : bdim m n = Some 1%nat -> m = 1%nat /\ n = 1%nat.
Proof.
  unfold bdim.
  destruct (Nat.eqb_spec m 1); [intros [= ->]; done |].
  destruct (Nat.eqb_spec n 1); [intros [= ->]; done |].
  destruct (Nat.eqb_spec m n); [intros [= ->]; done | done].
Qed.

Lemma pick_length_one {A : Type} (l : list A) (i j : nat) :
  length l = 1%nat -> pick l i = pick l j.
Proof. unfold pick. by intros ->. Qed.

Lemma pick_length_ne_one {A : Type} (l : list A) (i : nat) :
  length l <> 1%nat -> pick l i = l !! i.
Proof. unfold pick. by intros ->%Nat.eqb_neq. Qed.

Lemma blevel_pick {A : Type} (g : A -> A -> option A) (la lb lc : list A) (i : nat) (c : A) :
  blevel g la lb = Some lc -> pick lc i = Some c ->
  exists a b, pick la i = Some a /\ pick lb i = Some b /\ g a b = Some c.
Proof.
  intros [Hd Hi]%blevel_Some Hc.
  destruct (decide (length lc = 1%nat)) as [Hl | Hl].
  - rewrite (pick_length_one lc i 0 Hl) in Hc. unfold pick in Hc.
    rewrite Hl in Hc. simpl in Hc.
    destruct (Hi _ _ Hc) as (a & b & Ha & Hb & Hg).
    rewrite Hl in Hd. apply bdim_one in Hd as [Hla Hlb].
    exists a, b. by rewrite (pick_length_one la i 0 Hla), (pick_length_one lb i 0 Hlb).
  - rewrite (pick_length_ne_one lc i Hl) in Hc. by apply Hi.
Qed.

(** Every entry of a broadcast result is the kernel applied to the entries
    that broadcasting pairs at that index. *)
Lemma bcast_bget (f : R -> R -> R) (a b c : Tensor) (idx : list nat) (v : R) :
  bcast f a b = Some c -> bget c idx = Some v ->
  exists va vb, bget a idx = Some va /\ bget b idx = Some vb /\ v = f va vb.
Proof.
  revert b c idx v.
  induction a as [x | la IH] using Tensor_nested_ind; intros [y | lb] c idx v; simpl;
    try done.
  - intros [= <-]. destruct idx; simpl; [| done]. intros [= <-]. eauto.
  - destruct (blevel (bcast f) la lb) as [lc |] eqn:Hlc; simpl; [| done].
    intros [= <-]. destruct idx as [| i idx]; simpl; [done |].
    destruct (pick lc i) as [u |] eqn:Hu; simpl; [| done]. intros Hv.
    destruct (blevel_pick _ _ _ _ _ _ Hlc Hu) as (a' & b' & Ha & Hb & Hg).
    rewrite Ha, Hb. simpl.
    eapply (proj1 (Forall_forall _ _) IH); [by eapply pick_elem_of | done | done].
Qed.

Lemma bcast_has_shape (f : R -> R -> R) (a b : Tensor) (sa sb sc : list nat) :
  has_shape a sa = true -> has_shape b sb = true -> bshape sa sb = Some sc ->
  exists c, bcast f a b = Some c /\ has_shape c sc = true.
Proof.
  revert b sa sb sc.
  induction a as [x | la IH] using Tensor_nested_ind; intros b sa sb sc Ha Hb Hs.
  - destruct sa; [| done]. destruct sb; [| done].
    apply has_shape_Scalar_inv in Hb as [y ->]. injection Hs as <-. by eexists.
  - destruct sa as [| m sa]; [done |]. destruct sb as [| n sb]; [done |].
    apply has_shape_Dim in Ha as [Hla Hfa].
    apply has_shape_Dim_inv in Hb as (lb & -> & Hlb & Hfb).
    simpl in Hs. destruct (bdim m n) as [d |] eqn:Hd; simpl in Hs; [| done].
    destruct (bshape sa sb) as [sc' |] eqn:Hsc; simpl in Hs; [| done].
    injection Hs as <-.
    destruct (blevel_success (bcast f) (fun u => has_shape u sc' = true) la lb d)
      as (lc & Hlc & Hl & Hf).
    { by rewrite Hla, Hlb. }
    { intros a' b' Ha' Hb'.
      eapply (proj1 (Forall_forall _ _) IH); [done | | | done].
      - by eapply (proj1 (Forall_forall _ _) Hfa).
      - by eapply (proj1 (Forall_forall _ _) Hfb). }
    exists (Dim lc). simpl. rewrite Hlc. split; [done |].
    by apply has_shape_Dim.
Qed.

Lemma tget_bget (t : Tensor) (idx : list nat) (v : R) :
  tget t idx = Some v -> bget t idx = Some v.
Proof.
  revert t. induction idx as [| i idx IH]; intros [x | ts]; simpl; try done.
  destruct (ts !! i) as [u |] eqn:Hu; simpl; [| done].
  rewrite (pick_lookup _ _ _ Hu). simpl. apply IH.
Qed.

(** Two tensors of the same shape have entries at the same indices. *)
Lemma tget_same_shape (t u : Tensor) (s idx : list nat) :
  has_shape t s = true -> has_shape u s = true ->
  is_Some (tget t idx) -> is_Some (tget u idx).
Proof.
  revert t u s. induction idx as [| i idx IH]; intros t u s Ht Hu.
  - destruct t as [x | ts]; simpl; [| by intros []].
    destruct s; [| done]. apply has_shape_Scalar_inv in Hu as [y ->]. by eexists.
  - destruct t as [x | ts]; simpl; [by intros [] |].
    destruct s as [| n s]; [done |].
    apply has_shape_Dim in Ht as [Hlt Hft].
    apply has_shape_Dim_inv in Hu as (us & -> & Hlu & Hfu). simpl.
    destruct (ts !! i) as [t' |] eqn:Ht'; simpl; [| by intros []].
    destruct (lookup_lt_is_Some_2 us i) as [u' Hu'].
    { rewrite Hlu, <- Hlt. by eapply lookup_lt_Some. }
    rewrite Hu'. simpl. apply (IH t' u' s).
    + exact (Forall_lookup_1 _ _ _ _ Hft Ht').
    + exact (Forall_lookup_1 _ _ _ _ Hfu Hu').
Qed.

(** With no empty dimension, the rank of a tensor is the length of its
    shape. *)
Lemma rank_has_shape (t : Tensor) (s : list nat) :
  has_shape t s = true -> Forall (lt 0) s -> rank t = length s.
Proof.
  revert s. induction t as [x | ts IH] using Tensor_nested_ind; intros s Ht Hs.
  - by destruct s.
  - destruct s as [| n s]; [done |]. apply has_shape_Dim in Ht as [Hl Hf].
    apply Forall_cons in Hs as [Hn Hs].
    destruct ts as [| u ts]; [simpl in Hl; lia |]. simpl. f_equal.
    apply Forall_cons in IH as [IHu _]. apply Forall_cons in Hf as [Hu _].
    by apply IHu.
Qed.

Lemma bshape_length (sa sb sc : list nat) :
  bshape sa sb = Some sc -> length sa = length sb.
Proof.
  revert sb sc. induction sa as [| m sa IH]; intros [| n sb] sc; simpl; try done.
  destruct (bdim m n); simpl; [| done].
  destruct (bshape sa sb) eqn:Hs; simpl; [| done]. intros _. f_equal. by eapply IH.
Qed.

(** The operator on two well-shaped operands of the same rank: it succeeds
    when the shapes are compatible, its result has the broadcast shape and
    its entries are computed from the paired entries. *)
Lemma tbin_has_shape (f : R -> R -> R) (a b : Tensor) (sa sb sc : list nat) :
  has_shape a sa = true -> has_shape b sb = true ->
  Forall (lt 0) sa -> Forall (lt 0) sb ->
  bshape sa sb = Some sc ->
  exists c, tbin f a b = Some c /\ has_shape c sc = true /\
    forall idx v, bget c idx = Some v ->
      exists va vb, bget a idx = Some va /\ bget b idx = Some vb /\ v = f va vb.
Proof.
  intros Ha Hb Hpa Hpb Hs.
  assert (tbin f a b = bcast f a b) as Heq.
  { pose proof (bshape_length _ _ _ Hs) as Hlen.
    pose proof (rank_has_shape _ _ Ha Hpa) as Hra.
    pose proof (rank_has_shape _ _ Hb Hpb) as Hrb.
    destruct a as [x | la], b as [y | lb]; simpl in Hra, Hrb |- *.
    - done.
    - destruct sa; [| done]. by destruct sb.
    - destruct sb; [| done]. by destruct sa.
    - unfold tbin. rewrite Hra, Hrb, Hlen, Nat.sub_diag. done. }
  destruct (bcast_has_shape f a b sa sb sc Ha Hb Hs) as (c & Hc & Hsc).
  exists c. rewrite Heq. split; [done |]. split; [done |].
  intros idx v. by apply bcast_bget.
Qed.

(** *** Entrywise maps, shapes and entries *)

Lemma lookup_map {A B : Type} (h : A -> B) (l : list A) (i : nat) :
  map h l !! i = h <$> l !! i.
Proof. revert i. induction l as [| a l IH]; intros [| i]; simpl; auto. Qed.

Lemma pick_map {A B : Type} (h : A -> B) (l : list A) (i : nat) :
  pick (map h l) i = h <$> pick l i.
Proof. unfold pick. rewrite length_map. destruct (_ =? _)%nat; apply lookup_map. Qed.

Lemma has_shape_tmap (f : R -> R) (t : Tensor) (s : list nat) :
  has_shape (tmap f t) s = has_shape t s.
Proof.
  revert s. induction t as [x | ts IH] using Tensor_nested_ind; intros s; [done |].
  destruct s as [| n s]; [done |]. simpl. rewrite length_map. f_equal.
  induction IH as [| u ts Hu _ IHts]; simpl; [done |]. by rewrite Hu, IHts.
Qed.

Lemma bget_tmap (f : R -> R) (t : Tensor) (idx : list nat) :
  bget (tmap f t) idx = f <$> bget t idx.
Proof.
  revert t. induction idx as [| i idx IH]; intros [x | ts]; simpl; try done.
  rewrite pick_map. destruct (pick ts i) as [u |]; simpl; [apply IH | done].
Qed.

Lemma tget_tmap (f : R -> R) (t : Tensor) (idx : list nat) :
  tget (tmap f t) idx = f <$> tget t idx.
Proof.
  revert t. induction idx as [| i idx IH]; intros [x | ts]; simpl; try done.
  rewrite lookup_map. destruct (ts !! i) as [u |]; simpl; [apply IH | done].
Qed.

Lemma bdim_refl (m : nat) : bdim m m = Some m.
Proof.
  unfold bdim. destruct (Nat.eqb_spec m 1); [done |]. by rewrite Nat.eqb_refl.
Qed.

Lemma bshape_refl (s : list nat) : bshape s s = Some s.
Proof.
  induction s as [| m s IH]; simpl; [done |]. by rewrite bdim_refl, IH.
Qed.

(** A per-channel parameter of shape [(1, c, 1, 1)] against a feature map of
    shape [(n, c, h, w)]. *)
Lemma bshape_param (n c h w : nat) :
  bshape [1; c; 1; 1]%nat [n; c; h; w] = Some [n; c; h; w].
Proof. simpl. by rewrite bdim_refl. Qed.

Lemma bget_param (p : Tensor) (c i j k l : nat) (v : R) :
  has_shape p [1; c; 1; 1]%nat = true ->
  tget p [0; j; 0; 0]%nat = Some v -> bget p [i; j; k; l] = Some v.
Proof.
  intros (l1 & -> & Hl1 & Hf1)%has_shape_Dim_inv.
  destruct l1 as [| q [| ? ?]]; try done.
  apply Forall_cons in Hf1 as [(chans & -> & _ & Hf2)%has_shape_Dim_inv _].
  simpl. destruct (chans !! j) as [u |] eqn:Hu; simpl; [| done].
  rewrite (pick_lookup _ _ _ Hu). simpl.
  pose proof (Forall_lookup_1 _ _ _ _ Hf2 Hu) as (l3 & -> & Hl3 & Hf3)%has_shape_Dim_inv.
  destruct l3 as [| r [| ? ?]]; try done.
  apply Forall_cons in Hf3 as [(l4 & -> & Hl4 & Hf4)%has_shape_Dim_inv _].
  destruct l4 as [| e [| ? ?]]; try done.
Qed.

Lemma rank_same_shape (a b : Tensor) (s : list nat) :
  has_shape a s = true -> has_shape b s = true -> rank a = rank b.
Proof.
  revert b s. induction a as [x | la IH] using Tensor_nested_ind; intros b s Ha Hb.
  - destruct s; [| done]. by apply has_shape_Scalar_inv in Hb as [y ->].
  - destruct s as [| n s]; [done |]. apply has_shape_Dim in Ha as [Hla Hfa].
    apply has_shape_Dim_inv in Hb as (lb & -> & Hlb & Hfb).
    destruct la as [| a la], lb as [| b lb]; simpl in *; try done; try lia.
    f_equal. apply Forall_cons in IH as [IHa _].
    apply Forall_cons in Hfa as [Ha _]. apply Forall_cons in Hfb as [Hb _].
    by apply (IHa b s).
Qed.

(** On two tensors of one shape the operator works entry by entry. *)
Lemma tbin_same_shape (f : R -> R -> R) (a b : Tensor) (s : list nat) :
  has_shape a s = true -> has_shape b s = true ->
  exists c, tbin f a b = Some c /\ has_shape c s = true /\
    forall idx va vb, tget a idx = Some va -> tget b idx = Some vb ->
      tget c idx = Some (f va vb).
Proof.
  intros Ha Hb.
  assert (tbin f a b = bcast f a b) as Heq.
  { pose proof (rank_same_shape a b s Ha Hb) as Hr.
    destruct a as [x | la], b as [y | lb]; try done.
    - destruct s; [| done]. by destruct lb.
    - destruct s; [done | by destruct la].
    - unfold tbin. by rewrite Hr, Nat.sub_diag. }
  destruct (bcast_has_shape f a b s s s Ha Hb (bshape_refl s)) as (c & Hc & Hsc).
  exists c. rewrite Heq. split; [done |]. split; [done |].
  intros idx va vb Hva Hvb.
  destruct (tget_same_shape a c s idx Ha Hsc (ex_intro _ va Hva)) as [v Hv].
  destruct (bcast_bget f a b c idx v Hc (tget_bget _ _ _ Hv))
    as (va' & vb' & Hva' & Hvb' & ->).
  rewrite (tget_bget _ _ _ Hva) in Hva'. rewrite (tget_bget _ _ _ Hvb) in Hvb'.
  injection Hva' as <-. injection Hvb' as <-. done.
Qed.

(** Broadcasting on small tensors: a row against a column, a number against
    a row, a row against a matrix, and a shape error. *)
Example tmul_row_column :
  tmul (Dim [Dim [Scalar 1; Scalar 2]]) (Dim [Dim [Scalar 3]; Dim [Scalar 4]])
  = Some (Dim [Dim [Scalar (1 * 3); Scalar (2 * 3)];
               Dim [Scalar (1 * 4); Scalar (2 * 4)]]).
Proof. reflexivity. Qed.

Example tsub_number_row :
  tsub (Scalar 1) (Dim [Scalar 5; Scalar 7]) = Some (Dim [Scalar (1 - 5); Scalar (1 - 7)]).
Proof. reflexivity. Qed.

Example tadd_row_matrix :
  tadd (Dim [Scalar 1; Scalar 2]) (Dim [Dim [Scalar 3; Scalar 4]; Dim [Scalar 5; Scalar 6]])
  = Some (Dim [Dim [Scalar (1 + 3); Scalar (2 + 4)];
               Dim [Scalar (1 + 5); Scalar (2 + 6)]]).
Proof. reflexivity. Qed.

Example tmul_shape_error :
  tmul (Dim [Scalar 1; Scalar 2]) (Dim [Scalar 1; Scalar 2; Scalar 3]) = None.
Proof. reflexivity. Qed.

End TensorFacts.

(** ** Facts about the activations *)

Module ActivationFacts.
Import Tensors TensorFacts Activations.
Local Open Scope R_scope.

(** *** Derivatives of the entrywise kernels *)

Lemma derivable_pt_lim_eq (f g : R -> R) (x l l' : R) :
  (forall t, f t = g t) -> l = l' ->
  derivable_pt_lim f x l -> derivable_pt_lim g x l'.
Proof.
  intros Hfg <- Hf eps Heps.
  destruct (Hf eps Heps) as [d Hd].
  exists d. intros h Hh Hlt. rewrite <- !Hfg. by apply Hd.
Qed.

Lemma sigmoid_den_pos (x : R) : 0 < 1 + exp (- x).
Proof. pose proof (exp_pos (- x)). lra. Qed.

Lemma sigmoid_range (x : R) : 0 < sigmoid x < 1.
Proof.
  unfold sigmoid. pose proof (exp_pos (- x)) as He.
  split.
  - apply Rdiv_lt_0_compat; lra.
  - apply (Rmult_lt_reg_r (1 + exp (- x))); [lra |].
    unfold Rdiv. rewrite Rmult_assoc, Rinv_l; lra.
Qed.

Lemma sigmoid_deriv (x : R) :
  derivable_pt_lim sigmoid x (sigmoid x * (1 - sigmoid x)).
Proof.
  pose proof (sigmoid_den_pos x) as Hpos.
  assert (derivable_pt_lim (fun t => 1 + exp (- t)) x (0 + exp (- x) * (- 1)))
    as Hden.
  { apply (derivable_pt_lim_plus (fun _ => 1) (fun t => exp (- t))).
    - apply derivable_pt_lim_const.
    - apply (derivable_pt_lim_comp (fun t => - t) exp).
      + apply (derivable_pt_lim_eq (- id)%F (fun t => - t) x (- 1) (- 1)); auto.
        apply derivable_pt_lim_opp, derivable_pt_lim_id.
      + apply derivable_pt_lim_exp. }
  pose proof (derivable_pt_lim_div (fun _ => 1) (fun t => 1 + exp (- t)) x _ _
                (derivable_pt_lim_const 1 x) Hden (Rgt_not_eq _ _ Hpos)) as Hd.
  eapply derivable_pt_lim_eq; [| | exact Hd].
  - intros t. reflexivity.
  - unfold sigmoid, Rsqr. simpl. field. lra.
Qed.

Lemma silu_deriv (x : R) : derivable_pt_lim silu x (silu' x).
Proof.
  pose proof (derivable_pt_lim_mult id sigmoid x _ _
                (derivable_pt_lim_id x) (sigmoid_deriv x)) as Hd.
  eapply derivable_pt_lim_eq; [| | exact Hd].
  - intros t. reflexivity.
  - unfold silu', id. ring.
Qed.




Lemma softplus_below (x : R) : x <= 20 -> softplus x = ln (1 + exp x).
Proof. intros Hx. unfold softplus. destruct (Rlt_dec 20 x); [lra | done]. Qed.




Lemma tanh_exp (x : R) : tanh x = (exp x * exp x - 1) / (exp x * exp x + 1).
Proof.
  pose proof (exp_pos x) as He. unfold tanh, sinh, cosh.
  rewrite exp_Ropp. field. split; nra.
Qed.




Lemma tanh_pos_range (x : R) : 0 < x -> 0 < tanh x < 1.
Proof.
  intros Hx. rewrite tanh_exp. pose proof (exp_pos x) as He.
  assert (1 < exp x) as H1 by (rewrite <- exp_0; by apply exp_increasing).
  set (u := exp x * exp x). assert (1 < u) as Hu by (unfold u; nra).
  split.
  - apply Rdiv_lt_0_compat; lra.
  - apply (Rmult_lt_reg_r (u + 1)); [lra |].
    replace ((u - 1) / (u + 1) * (u + 1)) with (u - 1) by (field; lra). lra.
Qed.

Lemma softplus_pos (x : R) : 0 < softplus x.
Proof.
  unfold softplus. destruct (Rlt_dec 20 x); [lra |].
  pose proof (exp_pos x) as He. rewrite <- ln_1. apply ln_increasing; lra.
Qed.

Lemma tanh_softplus_range (x : R) : 0 < tanh (softplus x) < 1.
Proof. apply tanh_pos_range, softplus_pos. Qed.





(** *** Shape-independent evaluation of the modules *)

Lemma SiLU_forward_eval (x : Tensor) : SiLU.forward x = Some (tmap silu x).
Proof. exact (tbin_self_l Rmult sigmoid x). Qed.

Lemma Mish_forward_eval (x : Tensor) : Mish.forward x = Some (tmap mish x).
Proof.
  unfold Mish.forward, tmul, torch_tanh, F_softplus.
  rewrite tmap_tmap. apply (tbin_self_l Rmult (fun v => tanh (softplus v))).
Qed.

Lemma Swish_backward_eval (x grad_output : Tensor) :
  MemoryEfficientSwish.F.backward {| saved_tensors := [x] |} grad_output
  = tmul grad_output (tmap silu' x).
Proof.
  unfold MemoryEfficientSwish.F.backward, tadd, tsub, tmul, torch_sigmoid. simpl.
  rewrite tmap_tmap.
  rewrite (tbin_self_l Rmult (fun v => 1 - sigmoid v)). simpl.
  rewrite tmap_tmap.
  rewrite (tbin_tmap2 Rmult sigmoid (fun v => 1 + v * (1 - sigmoid v))). simpl.
  done.
Qed.


(** The gradient that reaches [backward] from [y.sum()]: all ones. *)
Lemma tmul_ones (k : R -> R) (x : Tensor) :
  tmul (tmap (fun _ => 1) x) (tmap k x) = Some (tmap k x).
Proof.
  unfold tmul. rewrite tbin_tmap2. f_equal. apply tmap_ext. intros v. ring.
Qed.

(** *** Hard-swish *)

Lemma hardswish_kernel (v : R) : v * hardtanh 0 6 (v + 3) / 6 = hardswish v.
Proof.
  unfold hardtanh, hardswish.
  destruct (Rle_dec v (-3)) as [H1 | H1]; [| destruct (Rle_dec 3 v) as [H2 | H2]].
  - rewrite Rmax_right, Rmin_left by lra. lra.
  - rewrite Rmax_left, Rmin_right by lra. lra.
  - rewrite Rmax_left, Rmin_left by lra. done.
Qed.

Lemma Hardswish_forward_eval (x : Tensor) :
  Hardswish.forward x = Some (tmap hardswish x).
Proof.
  unfold Hardswish.forward, tadd, tmul, tdiv, F_hardtanh.
  rewrite tbin_scalar_r. simpl. rewrite tmap_tmap.
  rewrite (tbin_self_l Rmult (fun v => hardtanh 0 6 (v + 3))). simpl.
  rewrite tbin_scalar_r, tmap_tmap. f_equal. apply tmap_ext, hardswish_kernel.
Qed.

(** Any interval contains a subinterval that avoids a given finite set. *)
Lemma knot_free_interval (knots : list R) (a b : R) :
  a < b ->
  exists lo hi, a <= lo /\ lo < hi /\ hi <= b /\
    forall p, p ∈ knots -> ~ (lo < p < hi).
Proof.
  intros Hab. induction knots as [| q knots IH].
  - exists a, b. repeat split; try lra. intros p Hp. by apply elem_of_nil in Hp.
  - destruct IH as (lo & hi & Hlo & Hlt & Hhi & Hfree).
    destruct (Rlt_dec lo q) as [Hq | Hq].
    + destruct (Rlt_dec q hi) as [Hq' | Hq'].
      * exists lo, q. repeat split; try lra.
        intros p [-> | Hp]%elem_of_cons; [lra |].
        intros [? ?]. apply (Hfree p Hp). lra.
      * exists lo, hi. repeat split; try lra.
        intros p [-> | Hp]%elem_of_cons; [lra | by apply Hfree].
    + exists lo, hi. repeat split; try lra.
      intros p [-> | Hp]%elem_of_cons; [lra | by apply Hfree].
Qed.

Lemma hardswish_middle (v : R) : -3 < v < 3 -> hardswish v = v * (v + 3) / 6.
Proof.
  intros [H1 H2]. unfold hardswish.
  destruct (Rle_dec v (-3)); [lra |]. destruct (Rle_dec 3 v); [lra | done].
Qed.

Lemma hardswish_not_affine (lo hi : R) :
  -3 <= lo -> lo < hi -> hi <= 3 -> ~ affine_on hardswish lo hi.
Proof.
  intros Hlo Hlt Hhi (a & b & Hab).
  set (m := (lo + hi) / 2). set (d := (hi - lo) / 4).
  assert (0 < d) as Hd by (unfold d; lra).
  pose proof (Hab (m - d) ltac:(unfold m, d; lra)) as H1.
  pose proof (Hab m ltac:(unfold m; lra)) as H2.
  pose proof (Hab (m + d) ltac:(unfold m, d; lra)) as H3.
  rewrite hardswish_middle in H1 by (unfold m, d; lra).
  rewrite hardswish_middle in H2 by (unfold m; lra).
  rewrite hardswish_middle in H3 by (unfold m, d; lra).
  assert (d * d = 0) as Hdd by lra.
  nra.
Qed.

Lemma hardswish_not_piecewise_linear : ~ piecewise_linear hardswish.
Proof.
  intros [knots Hk].
  destruct (knot_free_interval knots (-3) 3 ltac:(lra))
    as (lo & hi & Hlo & Hlt & Hhi & Hfree).
  by apply (hardswish_not_affine lo hi Hlo Hlt Hhi), Hk.
Qed.

(** An entrywise kernel is determined by the module: evaluate it on a
    0-dimensional tensor. *)
Lemma tmap_kernel_unique (k k' : R -> R) :
  (forall x, tmap k x = tmap k' x) -> forall v, k v = k' v.
Proof. intros H v. by injection (H (Scalar v)). Qed.

(** A gradient of the shape of [x] times an entrywise function of [x]. *)
Lemma backward_entries (res : option Tensor) (k : R -> R) (x grad_output : Tensor)
    (s : list nat) :
  res = tmul grad_output (tmap k x) ->
  has_shape x s = true -> has_shape grad_output s = true ->
  exists r, res = Some r /\ has_shape r s = true /\
    forall idx gv xv, tget grad_output idx = Some gv -> tget x idx = Some xv ->
      tget r idx = Some (gv * k xv).
Proof.
  intros -> Hx Hg.
  destruct (tbin_same_shape Rmult grad_output (tmap k x) s Hg)
    as (r & Hr & Hs & Hentry); [by rewrite has_shape_tmap |].
  exists r. split; [done |]. split; [done |].
  intros idx gv xv Hgv Hxv. apply Hentry; [done |].
  by rewrite tget_tmap, Hxv.
Qed.

(** *** The activation modules against their closed forms *)

(** C1. [MemoryEfficientSwish.F]: after [forward] has run on [x], [backward]
    returns [grad_output * (sx * (1 + x * (1 - sx)))] with [sx = sigmoid(x)]
    entry by entry, and that factor is the derivative of the entrywise
    function [x * sigmoid(x)] that [forward] computes; for the all-ones
    gradient [backward] returns the derivative itself. *)
Theorem swish_backward_is_derivative (ctx : Ctx) (x grad_output : Tensor) :
  (MemoryEfficientSwish.F.forward ctx x).2 = Some (tmap silu x) /\
  MemoryEfficientSwish.F.backward (MemoryEfficientSwish.F.forward ctx x).1 grad_output
    = tmul grad_output
        (tmap (fun v => sigmoid v * (1 + v * (1 - sigmoid v))) x) /\
  MemoryEfficientSwish.F.backward (MemoryEfficientSwish.F.forward ctx x).1
      (tmap (fun _ => 1) x)
    = Some (tmap (fun v => sigmoid v * (1 + v * (1 - sigmoid v))) x) /\
  (forall s, has_shape x s = true -> has_shape grad_output s = true ->
     exists r,
       MemoryEfficientSwish.F.backward (MemoryEfficientSwish.F.forward ctx x).1
         grad_output = Some r /\
       has_shape r s = true /\
       forall idx gv xv, tget grad_output idx = Some gv -> tget x idx = Some xv ->
         tget r idx = Some (gv * (sigmoid xv * (1 + xv * (1 - sigmoid xv))))) /\
  forall v, derivable_pt_lim silu v (sigmoid v * (1 + v * (1 - sigmoid v))).
Proof.
  split; [exact (SiLU_forward_eval x) |].
  split; [exact (Swish_backward_eval x grad_output) |].
  split; [etrans; [exact (Swish_backward_eval x _) | exact (tmul_ones silu' x)] |].
  split; [| exact silu_deriv].
  intros s Hx Hg.
  exact (backward_entries _ silu' x grad_output s (Swish_backward_eval x grad_output)
           Hx Hg).
Qed.



(** A 2x2 input and a gradient of the same shape. *)
Lemma swish_backward_is_derivative_witness :
  exists r,
    MemoryEfficientSwish.F.backward
      (MemoryEfficientSwish.F.forward new_ctx
         (Dim [Dim [Scalar 0; Scalar 1]; Dim [Scalar (-2); Scalar 3]])).1
      (Dim [Dim [Scalar 1; Scalar 1]; Dim [Scalar 5; Scalar 1]]) = Some r /\
    tget r [1; 0]%nat
    = Some (5 * (sigmoid (-2) * (1 + -2 * (1 - sigmoid (-2))))).
Proof.
  destruct (proj1 (proj2 (proj2 (proj2
              (swish_backward_is_derivative new_ctx
                 (Dim [Dim [Scalar 0; Scalar 1]; Dim [Scalar (-2); Scalar 3]])
                 (Dim [Dim [Scalar 1; Scalar 1]; Dim [Scalar 5; Scalar 1]])))))
              [2; 2]%nat eq_refl eq_refl) as (r & Hr & _ & Hentry).
  exists r. split; [exact Hr |].
  exact (Hentry [1; 0]%nat 5 (-2) eq_refl eq_refl).
Defined.




(** C4. The memory-efficient modules compute the same forward function as
    the plain ones. *)
Theorem memory_efficient_same_forward (x : Tensor) :
  MemoryEfficientSwish.forward x = SiLU.forward x /\
  MemoryEfficientMish.forward x = Mish.forward x.
Proof.
  split.
  - unfold MemoryEfficientSwish.forward, Function_apply,
      MemoryEfficientSwish.F.forward, SiLU.forward. done.
  - unfold MemoryEfficientMish.forward, Function_apply,
      MemoryEfficientMish.F.forward, Mish.forward. done.
Qed.

(** C5, as stated, fails: no piecewise-linear function is the entrywise
    kernel of [Hardswish.forward]. *)
Lemma hardswish_forward_not_piecewise_linear :
  ~ exists k : R -> R,
      piecewise_linear k /\ forall x, Hardswish.forward x = Some (tmap k x).
Proof.
  intros (k & [knots Hk] & Hfwd).
  assert (forall v, k v = hardswish v) as Hkv.
  { apply tmap_kernel_unique. intros x.
    pose proof (Hfwd x) as H. rewrite Hardswish_forward_eval in H.
    by injection H. }
  apply hardswish_not_piecewise_linear. exists knots. intros lo hi Hlt Hfree.
  destruct (Hk lo hi Hlt Hfree) as (a & b & Hab).
  exists a, b. intros v Hv. rewrite <- Hkv. by apply Hab.
Qed.

(** C5, amended. [Hardswish.forward] applies to every entry the function
    that is 0 up to -3, the identity from 3 on and the parabola
    x * (x + 3) / 6 in between. *)
Theorem hardswish_forward_pieces (x : Tensor) :
  Hardswish.forward x
  = Some (tmap (fun v => if Rle_dec v (-3) then 0
                         else if Rle_dec 3 v then v
                         else v * (v + 3) / 6) x).
Proof. exact (Hardswish_forward_eval x). Qed.

(** C6. [AconC.forward] on a feature map of shape [(n, c, h, w)], with the
    three parameters of shape [(1, c, 1, 1)]: the call succeeds, the output
    has the shape of the input, and its entry at [(i, j, k, l)] is
    [(p1 - p2) * x * g + p2 * x], which is the convex combination
    [g * (p1 * x) + (1 - g) * (p2 * x)] with the gate
    [g = sigmoid(beta * (p1 - p2) * x)] strictly between 0 and 1, where [x]
    is the input entry and [p1], [p2], [beta] are the values of channel
    [j]. *)
Theorem aconc_forward_convex_combination
    (self : AconC.t) (x : Tensor) (n c h w : nat) :
  (0 < n)%nat -> (0 < c)%nat -> (0 < h)%nat -> (0 < w)%nat ->
  has_shape (AconC.p1 self) [1; c; 1; 1]%nat = true ->
  has_shape (AconC.p2 self) [1; c; 1; 1]%nat = true ->
  has_shape (AconC.beta self) [1; c; 1; 1]%nat = true ->
  has_shape x [n; c; h; w] = true ->
  exists out,
    AconC.forward self x = Some out /\
    has_shape out [n; c; h; w] = true /\
    forall (i j k l : nat) (xv a b be : R),
      tget x [i; j; k; l] = Some xv ->
      tget (AconC.p1 self) [0; j; 0; 0]%nat = Some a ->
      tget (AconC.p2 self) [0; j; 0; 0]%nat = Some b ->
      tget (AconC.beta self) [0; j; 0; 0]%nat = Some be ->
      let g := sigmoid (be * ((a - b) * xv)) in
      tget out [i; j; k; l] = Some ((a - b) * xv * g + b * xv) /\
      (a - b) * xv * g + b * xv = g * (a * xv) + (1 - g) * (b * xv) /\
      0 < g < 1.
Proof.
  intros Hn Hc Hh Hw Hp1 Hp2 Hbeta Hx.
  destruct self as [p1 p2 beta]. cbn [AconC.p1 AconC.p2 AconC.beta] in *.
  set (P := [1; c; 1; 1]%nat) in *. set (X := [n; c; h; w]) in *.
  assert (Forall (lt 0) P) as HP by (repeat constructor; lia).
  assert (Forall (lt 0) X) as HX by (repeat constructor; lia).
  destruct (tbin_has_shape Rminus p1 p2 P P P Hp1 Hp2 HP HP (bshape_refl P))
    as (d & Hd & Hsd & Ed).
  destruct (tbin_has_shape Rmult d x P X X Hsd Hx HP HX (bshape_param n c h w))
    as (dpx & Hdpx & Hsdpx & Edpx).
  destruct (tbin_has_shape Rmult beta dpx P X X Hbeta Hsdpx HP HX (bshape_param n c h w))
    as (bd & Hbd & Hsbd & Ebd).
  assert (has_shape (torch_sigmoid bd) X = true) as Hssig
    by (unfold torch_sigmoid; by rewrite has_shape_tmap).
  destruct (tbin_has_shape Rmult dpx (torch_sigmoid bd) X X X Hsdpx Hssig HX HX
              (bshape_refl X)) as (m & Hm & Hsm & Em).
  destruct (tbin_has_shape Rmult p2 x P X X Hp2 Hx HP HX (bshape_param n c h w))
    as (q & Hq & Hsq & Eq).
  destruct (tbin_has_shape Rplus m q X X X Hsm Hsq HX HX (bshape_refl X))
    as (out & Hout & Hsout & Eout).
  exists out. split.
  { unfold AconC.forward, tsub, tmul, tadd. simpl.
    rewrite Hd. simpl. rewrite Hdpx. simpl. rewrite Hbd. simpl.
    rewrite Hm. simpl. rewrite Hq. simpl. exact Hout. }
  split; [done |].
  intros i j k l xv a b be Hxv Ha Hb Hbe.
  destruct (tget_same_shape x out X [i; j; k; l] Hx Hsout (ex_intro _ xv Hxv))
    as [v Hv].
  destruct (Eout _ _ (tget_bget _ _ _ Hv)) as (vm & vq & Hvm & Hvq & ->).
  destruct (Em _ _ Hvm) as (vdpx & vs & Hvdpx & Hvs & ->).
  unfold torch_sigmoid in Hvs. rewrite bget_tmap in Hvs.
  destruct (bget bd [i; j; k; l]) as [vbd |] eqn:Hvbd; simpl in Hvs; [| done].
  injection Hvs as <-.
  destruct (Ebd _ _ Hvbd) as (vbe & vdpx' & Hvbe & Hvdpx' & ->).
  rewrite Hvdpx in Hvdpx'. injection Hvdpx' as <-.
  destruct (Edpx _ _ Hvdpx) as (vd & vx & Hvd & Hvx & ->).
  destruct (Ed _ _ Hvd) as (va & vb & Hva & Hvb & ->).
  destruct (Eq _ _ Hvq) as (vb' & vx' & Hvb' & Hvx' & ->).
  rewrite (bget_param p1 c i j k l a Hp1 Ha) in Hva. injection Hva as <-.
  rewrite (bget_param p2 c i j k l b Hp2 Hb) in Hvb, Hvb'.
  injection Hvb as <-. injection Hvb' as <-.
  rewrite (bget_param beta c i j k l be Hbeta Hbe) in Hvbe. injection Hvbe as <-.
  rewrite (tget_bget _ _ _ Hxv) in Hvx, Hvx'.
  injection Hvx as <-. injection Hvx' as <-.
  split; [exact Hv |]. split; [ring | apply sigmoid_range].
Qed.

(** A 1x2x1x2 feature map through an [AconC] with two channels. *)
Lemma aconc_forward_convex_combination_witness :
  exists out,
    AconC.forward
      {| AconC.p1 := Dim [Dim [Dim [Dim [Scalar 2]]; Dim [Dim [Scalar 1]]]];
         AconC.p2 := Dim [Dim [Dim [Dim [Scalar 0]]; Dim [Dim [Scalar 3]]]];
         AconC.beta := Dim [Dim [Dim [Dim [Scalar 1]]; Dim [Dim [Scalar 1]]]] |}
      (Dim [Dim [Dim [Dim [Scalar 1; Scalar (-1)]]; Dim [Dim [Scalar 4; Scalar 5]]]])
    = Some out /\
    tget out [0; 1; 0; 1]%nat
    = Some ((1 - 3) * 5 * sigmoid (1 * ((1 - 3) * 5)) + 3 * 5).
Proof.
  destruct (aconc_forward_convex_combination
              {| AconC.p1 := Dim [Dim [Dim [Dim [Scalar 2]]; Dim [Dim [Scalar 1]]]];
                 AconC.p2 := Dim [Dim [Dim [Dim [Scalar 0]]; Dim [Dim [Scalar 3]]]];
                 AconC.beta := Dim [Dim [Dim [Dim [Scalar 1]]; Dim [Dim [Scalar 1]]]] |}
              (Dim [Dim [Dim [Dim [Scalar 1; Scalar (-1)]]; Dim [Dim [Scalar 4; Scalar 5]]]])
              1%nat 2%nat 1%nat 2%nat
              ltac:(lia) ltac:(lia) ltac:(lia) ltac:(lia)
              ltac:(reflexivity) ltac:(reflexivity) ltac:(reflexivity)
              ltac:(reflexivity))
    as (out & Hout & _ & Hentry).
  exists out. split; [exact Hout |].
  exact (proj1 (Hentry 0%nat 1%nat 0%nat 1%nat 5 1 3 1
                  ltac:(reflexivity) ltac:(reflexivity) ltac:(reflexivity)
                  ltac:(reflexivity))).
Defined.

End ActivationFacts.

(** ** Facts about the upload route *)

Module AppFacts.
Import App.

Section Facts.
Context `{Env}.

Implicit Types (form : gmap string string) (st : State).

Lemma truthy_Some_nonempty (link : string) :
  link <> "" -> truthy (Some link) = true.
Proof.
  intros Hl. simpl. destruct (String.eqb_spec link ""); done.
Qed.

Lemma truthy_false (v : option string) :
  truthy v = false -> v = None \/ v = Some "".
Proof.
  destruct v as [s |]; simpl; [| by left].
  destruct (String.eqb_spec s "") as [-> | ?]; [by right | done].
Qed.

(** The calls of step 1: one fetch in the link branch, at most one write
    (to the fixed path) in the other. *)
Lemma receive_image_calls (file image_link : option string) st :
  exists new,
    calls (receive_image file image_link st).2 = calls st ++ new /\
    (truthy image_link = true ->
       new = [Call_requests_get (default "" image_link)]) /\
    (truthy image_link = false ->
       new = [] \/
       exists img,
         new = [Call_imwrite (father_path +:+ "/mydata/images/test/1.png") img]).
Proof.
  unfold receive_image, mbind, M_bind, mret, M_ret, pure_call, world_call.
  destruct (truthy image_link) eqn:Ht.
  - exists [Call_requests_get (default "" image_link)].
    split; [| split; [done | done]].
    destruct (requests_get _ _) as [[e | content] w]; simpl; [done |].
    destruct (Image_open content); done.
  - destruct (base64_b64decode file) as [e | raw]; simpl.
    { exists []. rewrite app_nil_r. split; [done |]. split; [done | by left]. }
    destruct (Image_open raw) as [e | image]; simpl.
    { exists []. rewrite app_nil_r. split; [done |]. split; [done | by left]. }
    destruct (cvtColor_BGR2RGB _) as [e | img]; simpl.
    { exists []. rewrite app_nil_r. split; [done |]. split; [done | by left]. }
    exists [Call_imwrite (father_path +:+ "/mydata/images/test/1.png") img].
    split; [| split; [done | right; by exists img]].
    destruct (imwrite _ _ _) as [[e | b] w]; done.
Qed.

(** Unfolds one run of the handler into its steps. *)
Ltac run_handler :=
  unfold upload, receive_image, mbind, M_bind, mret, M_ret, pure_call,
    world_call in *;
  simpl in *.


(** C9. A response of the handler is the JSON object with the three keys
    [image_info], [re_label] and [num]: the label and the count are those
    returned by the one call of [service.app_detect], and [image_info] is
    the base64 text of the JPEG bytes of the image that call returned,
    after the colour-order conversion the handler applies to it. *)
Theorem upload_response form st resp st' :
  upload form st = (inr resp, st') ->
  exists c st1 image_array re_label num rgb img jpeg,
    py_float (form !! "re_conf") = inr c /\
    (receive_image (form !! "imageBase64Code") (form !! "imageLink") st).2 = st1 /\
    app_detect c (world st1) = (inr (image_array, re_label, num), world st') /\
    calls st' = calls st1 ++ [Call_app_detect c] /\
    (forall c', Call_app_detect c' ∉ calls st -> Call_app_detect c' ∈ calls st' -> c' = c) /\
    cvtColor_BGR2RGB image_array = inr rgb /\
    Image_fromarray_RGB rgb = inr img /\
    save_JPEG img = inr jpeg /\
    resp = {[ "image_info" := JStr (b64encode_ascii jpeg);
              "re_label" := JStr re_label;
              "num" := JInt num ]} /\
    dom resp = ({[ "image_info"; "re_label"; "num" ]} : gset string).
Proof.
  intros Hup. unfold upload, mbind, M_bind in Hup.
  unfold pure_call at 1 in Hup.
  destruct (py_float (form !! "re_conf")) as [e | c]; [done |].
  pose proof (receive_image_calls (form !! "imageBase64Code") (form !! "imageLink") st)
    as (new & Hnew & Hlink & Hfile).
  destruct (receive_image _ _ st) as [[e | []] st1] eqn:Hrecv; [done |].
  unfold world_call, pure_call, mret, M_ret in Hup.
  destruct (app_detect c (world st1)) as [[e | [[image_array re_label] num]] w]
    eqn:Hdet; [done |].
  destruct (cvtColor_BGR2RGB image_array) as [e | rgb] eqn:Hrgb; [done |].
  destruct (Image_fromarray_RGB rgb) as [e | img] eqn:Himg; [done |].
  destruct (save_JPEG img) as [e | jpeg] eqn:Hjpeg; [done |].
  injection Hup as <- <-.
  exists c, st1, image_array, re_label, num, rgb, img, jpeg. simpl in *.
  repeat split; try done.
  intros c' Hold Hin. rewrite Hnew in Hin.
  apply elem_of_app in Hin as [Hin | Hin].
  - apply elem_of_app in Hin as [Hin | Hin]; [done |].
    destruct (truthy (form !! "imageLink")).
    + rewrite (Hlink eq_refl) in Hin. by apply list_elem_of_singleton in Hin.
    + destruct (Hfile eq_refl) as [-> | [i ->]].
      * by apply elem_of_nil in Hin.
      * by apply list_elem_of_singleton in Hin.
  - apply list_elem_of_singleton in Hin. by injection Hin.
Qed.

(** When the image comes as base64 text, it is on disk, at the fixed
    path, before the detector runs. *)
Lemma upload_base64_writes_before_detect form st resp st' :
  truthy (form !! "imageLink") = false ->
  upload form st = (inr resp, st') ->
  exists c raw image img,
    py_float (form !! "re_conf") = inr c /\
    base64_b64decode (form !! "imageBase64Code") = inr raw /\
    Image_open raw = inr image /\
    cvtColor_BGR2RGB (np_asarray image) = inr img /\
    calls st' = calls st ++ [Call_imwrite (father_path +:+ "/mydata/images/test/1.png") img;
                             Call_app_detect c].
Proof.
  intros Ht Hup. run_handler. rewrite Ht in Hup.
  destruct (py_float (form !! "re_conf")) as [e | c]; [done |].
  destruct (base64_b64decode _) as [e | raw]; [done |].
  destruct (Image_open raw) as [e | image] eqn:Hopen; [done |].
  destruct (cvtColor_BGR2RGB (np_asarray image)) as [e | img] eqn:Hcvt; [done |].
  destruct (imwrite _ _ _) as [[e | b] w]; [done |]. simpl in Hup.
  destruct (app_detect c w) as [[e | [[image_array re_label] num]] w']; [done |].
  destruct (cvtColor_BGR2RGB image_array) as [e | rgb]; [done |].
  destruct (Image_fromarray_RGB rgb) as [e | img']; [done |].
  destruct (save_JPEG img') as [e | jpeg]; [done |].
  injection Hup as <- <-. exists c, raw, image, img. simpl.
  rewrite <- app_assoc. done.
Qed.

Lemma receive_image_link (file file' image_link : option string) st :
  truthy image_link = true ->
  receive_image file image_link st = receive_image file' image_link st.
Proof. intros Ht. unfold receive_image. by rewrite Ht. Qed.

(** The calls one run of the handler adds. *)
Lemma upload_new_calls form st :
  exists new,
    calls (upload form st).2 = calls st ++ new /\
    ((exists e, py_float (form !! "re_conf") = inl e /\ new = []) \/
     (truthy (form !! "imageLink") = true /\
      exists c rest,
        py_float (form !! "re_conf") = inr c /\
        new = Call_requests_get (default "" (form !! "imageLink")) :: rest /\
        (rest = [] \/ rest = [Call_app_detect c])) \/
     (truthy (form !! "imageLink") = false /\ new = []) \/
     (truthy (form !! "imageLink") = false /\
      exists c raw image img rest,
        py_float (form !! "re_conf") = inr c /\
        base64_b64decode (form !! "imageBase64Code") = inr raw /\
        Image_open raw = inr image /\
        cvtColor_BGR2RGB (np_asarray image) = inr img /\
        new = Call_imwrite (father_path +:+ "/mydata/images/test/1.png") img :: rest /\
        (rest = [] \/ rest = [Call_app_detect c]))).
Proof.
  run_handler.
  destruct (py_float (form !! "re_conf")) as [e | c]; simpl.
  { exists []. rewrite app_nil_r. split; [done |]. left. by exists e. }
  destruct (truthy (form !! "imageLink")).
  - destruct (requests_get _ _) as [[e | content] w]; simpl.
    { eexists. split; [done |]. right; left. split; [done |].
      exists c, []. split; [done |]. split; [done | by left]. }
    destruct (Image_open content) as [e | image]; simpl.
    { eexists. split; [done |]. right; left. split; [done |].
      exists c, []. split; [done |]. split; [done | by left]. }
    exists [Call_requests_get (default "" (form !! "imageLink")); Call_app_detect c].
    split.
    + destruct (app_detect c w) as [[e | [[image_array re_label] num]] w'];
        simpl; [by rewrite <- app_assoc |].
      destruct (cvtColor_BGR2RGB image_array); [by rewrite <- app_assoc |].
      destruct (Image_fromarray_RGB _); [by rewrite <- app_assoc |].
      destruct (save_JPEG _); by rewrite <- app_assoc.
    + right; left. split; [done |].
      exists c, [Call_app_detect c]. split; [done |]. split; [done | by right].
  - destruct (base64_b64decode _) as [e | raw]; simpl.
    { exists []. rewrite app_nil_r. split; [done |]. right; right; left. done. }
    destruct (Image_open raw) as [e | image] eqn:Hopen; simpl.
    { exists []. rewrite app_nil_r. split; [done |]. right; right; left. done. }
    destruct (cvtColor_BGR2RGB (np_asarray image)) as [e | img0] eqn:Hcvt; simpl.
    { exists []. rewrite app_nil_r. split; [done |]. right; right; left. done. }
    destruct (imwrite _ _ _) as [[e | b] w]; simpl.
    { eexists. split; [done |]. right; right; right. split; [done |].
      exists c, raw, image, img0, []. repeat split; try done. by left. }
    exists [Call_imwrite (father_path +:+ "/mydata/images/test/1.png") img0;
            Call_app_detect c].
    split.
    + destruct (app_detect c w) as [[e | [[image_array re_label] num]] w'];
        simpl; [by rewrite <- app_assoc |].
      destruct (cvtColor_BGR2RGB image_array); [by rewrite <- app_assoc |].
      destruct (Image_fromarray_RGB _); [by rewrite <- app_assoc |].
      destruct (save_JPEG _); by rewrite <- app_assoc.
    + right; right; right. split; [done |].
      exists c, raw, image, img0, [Call_app_detect c].
      repeat split; try done. by right.
Qed.

Lemma not_imwrite_in_tail (c : PyFloat) (rest : list Call) path img :
  rest = [] \/ rest = [Call_app_detect c] -> Call_imwrite path img ∉ rest.
Proof.
  intros [-> | ->] Hin; [by apply elem_of_nil in Hin |].
  by apply list_elem_of_singleton in Hin.
Qed.

(** C10. A non-empty [imageLink] wins over [imageBase64Code]: the result
    and the state after the handler are the same whatever the base64
    field holds and whether it is there at all, none of the calls the
    handler makes is a [cv2.imwrite], and the first call after [float]
    accepted [re_conf] is the fetch of the link.  A [cv2.imwrite] made by
    the handler means that [imageLink] was missing or empty, and what it
    writes, at the fixed path, is the decoded base64 image. *)
Theorem upload_prefers_link form st :
  exists new,
    calls (upload form st).2 = calls st ++ new /\
    (forall link, form !! "imageLink" = Some link -> link <> "" ->
       (forall payload,
          upload (<["imageBase64Code" := payload]> form) st = upload form st) /\
       upload (delete "imageBase64Code" form) st = upload form st /\
       (forall path img, Call_imwrite path img ∉ new) /\
       (forall c, py_float (form !! "re_conf") = inr c ->
          exists rest, new = Call_requests_get link :: rest)) /\
    (forall path img,
       Call_imwrite path img ∈ new ->
       (form !! "imageLink" = None \/ form !! "imageLink" = Some "") /\
       path = (father_path +:+ "/mydata/images/test/1.png")%string /\
       exists raw image,
         base64_b64decode (form !! "imageBase64Code") = inr raw /\
         Image_open raw = inr image /\
         cvtColor_BGR2RGB (np_asarray image) = inr img).
Proof.
  destruct (upload_new_calls form st) as (new & Hnew & Hshape).
  assert (forall path img,
            Call_imwrite path img ∈ new ->
            truthy (form !! "imageLink") = false /\
            path = (father_path +:+ "/mydata/images/test/1.png")%string /\
            exists raw image,
              base64_b64decode (form !! "imageBase64Code") = inr raw /\
              Image_open raw = inr image /\
              cvtColor_BGR2RGB (np_asarray image) = inr img) as Hwrite.
  { intros path img Hin.
    destruct Hshape as [(e & _ & ->) | [(_ & c & rest & _ & -> & Hrest)
      | [(_ & ->) | (Hf & c & raw & image & img0 & rest & _ & Hraw & Hopen & Hcvt & -> & Hrest)]]].
    - by apply elem_of_nil in Hin.
    - apply elem_of_cons in Hin as [Hin | Hin]; [done |].
      by apply (not_imwrite_in_tail c) in Hin.
    - by apply elem_of_nil in Hin.
    - apply elem_of_cons in Hin as [Hin | Hin];
        [| by apply (not_imwrite_in_tail c) in Hin].
      injection Hin as -> ->. split; [done |]. split; [done |].
      by exists raw, image. }
  exists new. split; [done |]. split.
  - intros link Hl Hne.
    pose proof (truthy_Some_nonempty link Hne) as Ht.
    split; [| split; [| split]].
    + intros payload. unfold upload.
      rewrite (lookup_insert_ne form "imageBase64Code" "re_conf") by done.
      rewrite (lookup_insert_ne form "imageBase64Code" "imageLink") by done.
      rewrite lookup_insert_eq, Hl.
      unfold mbind, M_bind.
      destruct (pure_call _ st) as [[e | c] st0]; [done |].
      by rewrite (receive_image_link (Some payload) (form !! "imageBase64Code")).
    + unfold upload.
      rewrite (lookup_delete_ne form "imageBase64Code" "re_conf") by done.
      rewrite (lookup_delete_ne form "imageBase64Code" "imageLink") by done.
      rewrite lookup_delete_eq, Hl.
      unfold mbind, M_bind.
      destruct (pure_call _ st) as [[e | c] st0]; [done |].
      by rewrite (receive_image_link None (form !! "imageBase64Code")).
    + intros path img Hin.
      destruct (Hwrite path img Hin) as [Hf _].
      rewrite Hl, Ht in Hf. done.
    + intros c Hc. rewrite Hl in Hshape.
      destruct Hshape as [(e & He & _) | [(_ & c' & rest & _ & -> & _)
        | [(Hf & _) | (Hf & _)]]].
      * rewrite Hc in He. done.
      * by exists rest.
      * rewrite Ht in Hf. done.
      * rewrite Ht in Hf. done.
  - intros path img Hin.
    destruct (Hwrite path img Hin) as (Hf & Hp & Hdec).
    split; [by apply truthy_false | done].
Qed.

End Facts.

(** *** Runs of the handler on the stand-in environment *)

(** C7 fails on a request that names a remote image: the handler fetches
    the image and calls the detector without a [cv2.imwrite] in between, so
    the detector reports on the file an earlier upload left on disk (the
    response carries the old image [x01], not the fetched [x02]). *)
Lemma upload_link_request_skips_write :
  @upload demo_env link_form demo_state
  = (inr {[ "image_info" := JStr "AQ==";
            "re_label" := JStr "person";
            "num" := JInt 1 ]},
     {| world := demo_disk : @World demo_env;
        calls := [@Call_requests_get demo_env "http://cam/1.jpg";
                  @Call_app_detect demo_env 25%Z] |}).
Proof. reflexivity. Qed.

(** The same image as base64 text is written first. *)
Lemma upload_base64_request_writes :
  calls (@upload demo_env base64_form demo_state).2
  = [@Call_imwrite demo_env "/srv/app/mydata/images/test/1.png" [Byte.x01];
     @Call_app_detect demo_env 25%Z].
Proof. reflexivity. Qed.


Lemma upload_response_witness :
  @upload demo_env base64_form demo_state
  = (inr {[ "image_info" := JStr "AQ==";
            "re_label" := JStr "person";
            "num" := JInt 1 ]},
     {| world := (("/srv/app/mydata/images/test/1.png", [Byte.x01]) :: demo_disk)
                 : @World demo_env;
        calls := [@Call_imwrite demo_env "/srv/app/mydata/images/test/1.png" [Byte.x01];
                  @Call_app_detect demo_env 25%Z] |}) /\
  dom ({[ "image_info" := JStr "AQ==";
          "re_label" := JStr "person";
          "num" := JInt 1 ]} : gmap string json)
  = ({[ "image_info"; "re_label"; "num" ]} : gset string).
Proof.
  split; [reflexivity |].
  destruct (@upload_response demo_env base64_form demo_state _ _ eq_refl)
    as (c & st1 & image_array & re_label & num & rgb & img & jpeg & H).
  exact (proj2 (proj2 (proj2 (proj2 (proj2 (proj2 (proj2 (proj2 (proj2 H))))))))).
Defined.

Lemma upload_prefers_link_witness :
  @upload demo_env (<["imageBase64Code" := "AQ=="]> link_form) demo_state
  = @upload demo_env link_form demo_state.
Proof.
  destruct (@upload_prefers_link demo_env link_form demo_state)
    as (new & _ & Hlink & _).
  exact (proj1 (Hlink "http://cam/1.jpg" eq_refl ltac:(done)) "AQ==").
Defined.

End AppFacts.


(** ** More facts about tensors: entries, sums and means *)

Module TensorExtras.
Import Tensors TensorFacts.
Local Open Scope R_scope.

(** An entry exists exactly at the indices below the shape. *)
Lemma tget_Some_lt (t : Tensor) (s idx : list nat) (v : R) :
  has_shape t s = true -> tget t idx = Some v -> Forall2 lt idx s.
Proof.
  revert t s. induction idx as [| i idx IH]; intros [x | ts] s Ht; simpl; try done.
  - destruct s; [constructor | done].
  - destruct s as [| n s]; [done |]. apply has_shape_Dim in Ht as [Hl Hf].
    destruct (ts !! i) as [u |] eqn:Hu; simpl; [| done]. intros Hv.
    constructor.
    + rewrite <- Hl. by eapply lookup_lt_Some.
    + apply (IH u s); [exact (Forall_lookup_1 _ _ _ _ Hf Hu) | done].
Qed.

Lemma tget_lt_Some (t : Tensor) (s idx : list nat) :
  has_shape t s = true -> Forall2 lt idx s -> is_Some (tget t idx).
Proof.
  revert t s. induction idx as [| i idx IH]; intros t s Ht Hidx.
  - apply Forall2_nil_inv_l in Hidx as ->.
    apply has_shape_Scalar_inv in Ht as [v ->]. by eexists.
  - apply Forall2_cons_inv_l in Hidx as (n & s' & Hi & Hidx & ->).
    apply has_shape_Dim_inv in Ht as (ts & -> & Hl & Hf). simpl.
    destruct (lookup_lt_is_Some_2 ts i) as [u Hu]; [lia |].
    rewrite Hu. simpl. apply (IH u s'); [| done].
    exact (Forall_lookup_1 _ _ _ _ Hf Hu).
Qed.

(** Two tensors of one shape with the same entries are equal. *)
Lemma tensor_ext (a b : Tensor) (s : list nat) :
  has_shape a s = true -> has_shape b s = true ->
  (forall idx v, tget a idx = Some v -> tget b idx = Some v) ->
  a = b.
Proof.
  revert b s. induction a as [x | la IH] using Tensor_nested_ind; intros b s Ha Hb Hab.
  - destruct s; [| done]. apply has_shape_Scalar_inv in Hb as [y ->].
    specialize (Hab [] x eq_refl). simpl in Hab. by injection Hab as ->.
  - destruct s as [| n s]; [done |]. apply has_shape_Dim in Ha as [Hla Hfa].
    apply has_shape_Dim_inv in Hb as (lb & -> & Hlb & Hfb). f_equal.
    apply list_eq_same_length with n; [done | done |].
    intros i ai bi Hi Hai Hbi.
    apply (Forall_lookup_1 _ _ _ _ IH Hai bi s).
    + exact (Forall_lookup_1 _ _ _ _ Hfa Hai).
    + exact (Forall_lookup_1 _ _ _ _ Hfb Hbi).
    + intros idx v Hv. specialize (Hab (i :: idx) v). simpl in Hab.
      rewrite Hai, Hbi in Hab. by apply Hab.
Qed.

(** [torch.full]: shape and entries. *)
Lemma has_shape_torch_full (s : list nat) (v : R) :
  has_shape (torch_full s v) s = true.
Proof.
  induction s as [| n s IH]; [done |]. apply has_shape_Dim.
  split; [apply length_replicate |]. by apply Forall_replicate.
Qed.

Lemma tget_torch_full (s idx : list nat) (v : R) :
  Forall2 lt idx s -> tget (torch_full s v) idx = Some v.
Proof.
  revert s. induction idx as [| i idx IH]; intros s Hidx.
  - by apply Forall2_nil_inv_l in Hidx as ->.
  - apply Forall2_cons_inv_l in Hidx as (n & s' & Hi & Hidx & ->). simpl.
    rewrite lookup_replicate_2 by done. simpl. by apply IH.
Qed.

(** Sub-tensors. *)
Lemma tget_tat (t u : Tensor) (idx idx' : list nat) :
  tat t idx = Some u -> tget t (idx ++ idx') = tget u idx'.
Proof.
  revert t. induction idx as [| i idx IH]; intros t; simpl.
  - by intros [= ->].
  - destruct t as [x | ts]; [done |].
    destruct (ts !! i) as [w |]; simpl; [apply IH | done].
Qed.

Lemma has_shape_tat (t u : Tensor) (s idx : list nat) :
  has_shape t s = true -> tat t idx = Some u ->
  has_shape u (drop (length idx) s) = true.
Proof.
  revert t s. induction idx as [| i idx IH]; intros t s Ht; simpl.
  - by intros [= <-].
  - destruct t as [x | ts]; [done |]. destruct s as [| n s]; [done |].
    apply has_shape_Dim in Ht as [_ Hf].
    destruct (ts !! i) as [w |] eqn:Hw; simpl; [| done].
    apply IH. exact (Forall_lookup_1 _ _ _ _ Hf Hw).
Qed.

(** *** Sums and means *)

Lemma blevel_zipM {A : Type} (g : A -> A -> option A) (la lb : list A) :
  length la = length lb -> blevel g la lb = zipM g la lb.
Proof.
  destruct la as [| a0 [| a1 la]], lb as [| b0 [| b1 lb]]; simpl; try done.
Qed.

Lemma bcast_tsum (a b c : Tensor) (s : list nat) :
  has_shape a s = true -> has_shape b s = true ->
  bcast Rplus a b = Some c -> tsum c = tsum a + tsum b.
Proof.
  revert b c s. induction a as [x | la IH] using Tensor_nested_ind;
    intros b c s Ha Hb Hc.
  - destruct s; [| done]. apply has_shape_Scalar_inv in Hb as [y ->].
    simpl in Hc. by injection Hc as <-.
  - destruct s as [| n s]; [done |]. apply has_shape_Dim in Ha as [Hla Hfa].
    apply has_shape_Dim_inv in Hb as (lb & -> & Hlb & Hfb).
    simpl in Hc. rewrite blevel_zipM in Hc by congruence.
    destruct (zipM (bcast Rplus) la lb) as [lc |] eqn:Hlc; simpl in Hc; [| done].
    injection Hc as <-. simpl. clear Hla Hlb.
    revert lb lc Hfb Hlc.
    induction IH as [| a la IHa _ IHla]; intros [| b lb] lc Hfb Hlc; simpl in Hlc;
      try done.
    + injection Hlc as <-. simpl. lra.
    + destruct (bcast Rplus a b) as [c |] eqn:Hc; simpl in Hlc; [| done].
      destruct (zipM (bcast Rplus) la lb) as [cs |] eqn:Hcs; simpl in Hlc; [| done].
      injection Hlc as <-. simpl.
      apply Forall_cons in Hfa as [Ha Hfa]. apply Forall_cons in Hfb as [Hb Hfb].
      rewrite (IHa b c s Ha Hb Hc), (IHla Hfa lb cs Hfb Hcs). lra.
Qed.

Lemma tsum_tmap_div (k : R) (t : Tensor) :
  tsum (tmap (fun v => v / k) t) = tsum t / k.
Proof.
  induction t as [x | ts IH] using Tensor_nested_ind; simpl; [done |].
  induction IH as [| u ts Hu _ IHts]; simpl; [lra |].
  rewrite Hu, IHts. lra.
Qed.

Lemma tsum_list_spec (acc : Tensor) (ts : list Tensor) (s : list nat) :
  has_shape acc s = true -> Forall (fun u => has_shape u s = true) ts ->
  exists r, tsum_list acc ts = Some r /\ has_shape r s = true /\
    tsum r = tsum acc + foldr Rplus 0 (map tsum ts).
Proof.
  intros Hacc Hts. revert acc Hacc.
  induction Hts as [| u ts Hu _ IH]; intros acc Hacc; simpl.
  - exists acc. split; [done |]. split; [done | lra].
  - destruct (bcast_has_shape Rplus acc u s s s Hacc Hu (bshape_refl s))
      as (a & Ha & Hsa).
    rewrite Ha. simpl. destruct (IH a Hsa) as (r & Hr & Hsr & Hsum).
    exists r. split; [done |]. split; [done |].
    rewrite Hsum, (bcast_tsum acc u a s Hacc Hu Ha). lra.
Qed.

(** The mean along a non-empty dimension: it succeeds, the dimension gets
    size 1, and the entries add up to the old total divided by the old
    size. *)
Lemma torch_mean_spec (t : Tensor) (dim : nat) (s : list nat) (k : nat) :
  has_shape t s = true -> s !! dim = Some k -> (0 < k)%nat ->
  exists r, torch_mean dim t = Some r /\
    has_shape r (<[dim := 1%nat]> s) = true /\
    tsum r = tsum t / INR k.
Proof.
  revert dim s. induction t as [x | ts IH] using Tensor_nested_ind;
    intros dim s Ht Hk Hpos.
  - destruct s; [| done]. by destruct dim.
  - destruct s as [| n s]; [done |]. apply has_shape_Dim in Ht as [Hl Hf].
    destruct dim as [| d]; simpl in Hk.
    + injection Hk as ->. destruct ts as [| u us]; [simpl in Hl; lia |].
      apply Forall_cons in Hf as [Hu Hus].
      destruct (tsum_list_spec u us s Hu Hus) as (r & Hr & Hsr & Hsum).
      simpl. rewrite Hr. simpl. eexists. split; [done |]. split.
      * apply has_shape_Dim. split; [done |]. constructor; [| done].
        by rewrite has_shape_tmap.
      * simpl. rewrite tsum_tmap_div, Hsum, <- Hl. simpl. lra.
    + assert (exists rs, mapM (torch_mean d) ts = Some rs /\
                length rs = length ts /\
                Forall (fun r => has_shape r (<[d := 1%nat]> s) = true) rs /\
                foldr Rplus 0 (map tsum rs)
                = foldr Rplus 0 (map tsum ts) / INR k) as (rs & Hrs & Hlen & Hfr & Hsum).
      { clear Hl. induction IH as [| u ts IHu _ IHts].
        - exists []. repeat split; [done | simpl; lra].
        - apply Forall_cons in Hf as [Hu Hf].
          destruct (IHu d s Hu Hk Hpos) as (r & Hr & Hsr & Hsum).
          destruct (IHts Hf) as (rs & Hrs & Hlen & Hfr & Hsums).
          exists (r :: rs). split; [| split; [| split]].
          + apply mapM_Some. constructor; [done | by apply mapM_Some].
          + simpl. by f_equal.
          + by constructor.
          + simpl. rewrite Hsum, Hsums. lra. }
      simpl. rewrite Hrs. simpl. eexists. split; [done |]. split; [| done].
      apply has_shape_Dim. split; [congruence | done].
Qed.

(** The mean along a later dimension is taken inside every sub-tensor. *)
Lemma torch_mean_tat (idx : list nat) (d : nat) (t r u : Tensor) :
  torch_mean (length idx + d) t = Some r -> tat t idx = Some u ->
  exists ru, tat r idx = Some ru /\ torch_mean d u = Some ru.
Proof.
  revert t r. induction idx as [| i idx IH]; intros t r Hr Hu; simpl in *.
  - injection Hu as <-. by exists r.
  - destruct t as [x | ts]; [done |].
    destruct (ts !! i) as [ti |] eqn:Hti; simpl in Hu; [| done].
    change (torch_mean (S (length idx + d)) (Dim ts))
      with (Dim <$> mapM (torch_mean (length idx + d)) ts) in Hr.
    destruct (mapM (torch_mean (length idx + d)) ts) as [rs |] eqn:Hrs;
      simpl in Hr; [| done].
    injection Hr as <-. apply mapM_Some in Hrs.
    destruct (Forall2_lookup_l _ _ _ _ _ Hrs Hti) as (ri & Hri & Hmean).
    simpl. rewrite Hri. simpl. by apply (IH ti ri).
Qed.

End TensorExtras.

(** ** More facts about the activation modules *)

Module ActivationExtras.
Import Tensors TensorFacts TensorExtras Activations ActivationFacts.
Local Open Scope R_scope.

(** *** The ACON expression on a feature map *)

Lemma index4 (idx : list nat) (n c h w : nat) :
  Forall2 lt idx [n; c; h; w] ->
  exists i j k l, idx = [i; j; k; l] /\
    (i < n)%nat /\ (j < c)%nat /\ (k < h)%nat /\ (l < w)%nat.
Proof.
  intros H.
  apply Forall2_cons_inv_r in H as (i & idx1 & Hi & H & ->).
  apply Forall2_cons_inv_r in H as (j & idx2 & Hj & H & ->).
  apply Forall2_cons_inv_r in H as (k & idx3 & Hk & H & ->).
  apply Forall2_cons_inv_r in H as (l & idx4 & Hl & H & ->).
  apply Forall2_nil_inv_r in H as ->. by exists i, j, k, l.
Qed.

Lemma bshape_gate (n c h w : nat) :
  bshape [n; c; 1; 1]%nat [n; c; h; w] = Some [n; c; h; w].
Proof. simpl. by rewrite !bdim_refl. Qed.

(** A tensor of shape [(n, c, 1, 1)] against a feature map: the entry paired
    with [(i, j, k, l)] is the one at [(i, j, 0, 0)]. *)
Lemma bget_gate (p : Tensor) (n c i j k l : nat) (v : R) :
  has_shape p [n; c; 1; 1]%nat = true ->
  tget p [i; j; 0; 0]%nat = Some v -> bget p [i; j; k; l] = Some v.
Proof.
  intros (imgs & -> & _ & Hf1)%has_shape_Dim_inv. simpl.
  destruct (imgs !! i) as [q |] eqn:Hq; simpl; [| done].
  rewrite (pick_lookup _ _ _ Hq). simpl.
  pose proof (Forall_lookup_1 _ _ _ _ Hf1 Hq) as (chans & -> & _ & Hf2)%has_shape_Dim_inv.
  destruct (chans !! j) as [u |] eqn:Hu; simpl; [| done].
  rewrite (pick_lookup _ _ _ Hu). simpl.
  pose proof (Forall_lookup_1 _ _ _ _ Hf2 Hu) as (l3 & -> & Hl3 & Hf3)%has_shape_Dim_inv.
  destruct l3 as [| r [| ? ?]]; try done.
  apply Forall_cons in Hf3 as [(l4 & -> & Hl4 & Hf4)%has_shape_Dim_inv _].
  destruct l4 as [| e [| ? ?]]; try done.
Qed.

(** The value of channel [j] of a per-channel parameter. *)
Lemma tget_param (p : Tensor) (c j : nat) :
  has_shape p [1; c; 1; 1]%nat = true -> (j < c)%nat ->
  exists a, tget p [0; j; 0; 0]%nat = Some a.
Proof.
  intros Hp Hj. apply (tget_lt_Some p [1; c; 1; 1]%nat); [done |].
  repeat constructor; lia.
Qed.

(** Entries of the expression shared by [AconC.forward] and
    [MetaAconC.forward], for [p1], [p2] of shape [(1, c, 1, 1)] and a [beta]
    of shape [(1, c, 1, 1)] or [(n, c, 1, 1)]. *)
Lemma acon_entries (p1 p2 beta x : Tensor) (n c h w nb : nat) :
  (0 < n)%nat -> (0 < c)%nat -> (0 < h)%nat -> (0 < w)%nat ->
  has_shape p1 [1; c; 1; 1]%nat = true ->
  has_shape p2 [1; c; 1; 1]%nat = true ->
  has_shape beta [nb; c; 1; 1]%nat = true -> nb = 1%nat \/ nb = n ->
  has_shape x [n; c; h; w] = true ->
  exists out,
    AconC.forward {| AconC.p1 := p1; AconC.p2 := p2; AconC.beta := beta |} x
      = Some out /\
    has_shape out [n; c; h; w] = true /\
    forall idx v, tget out idx = Some v ->
      exists i j k l xv a b be,
        idx = [i; j; k; l] /\
        tget x [i; j; k; l] = Some xv /\
        tget p1 [0; j; 0; 0]%nat = Some a /\
        tget p2 [0; j; 0; 0]%nat = Some b /\
        bget beta [i; j; k; l] = Some be /\
        v = (a - b) * xv * sigmoid (be * ((a - b) * xv)) + b * xv.
Proof.
  intros Hn Hc Hh Hw Hp1 Hp2 Hbeta Hnb Hx.
  set (P := [1; c; 1; 1]%nat) in *. set (X := [n; c; h; w]) in *.
  assert (Forall (lt 0) P) as HP by (repeat constructor; lia).
  assert (Forall (lt 0) X) as HX by (repeat constructor; lia).
  assert (Forall (lt 0) [nb; c; 1; 1]%nat) as HB
    by (repeat constructor; destruct Hnb; lia).
  assert (bshape [nb; c; 1; 1]%nat X = Some X) as HbX.
  { destruct Hnb as [-> | ->]; [apply bshape_param | apply bshape_gate]. }
  destruct (tbin_has_shape Rminus p1 p2 P P P Hp1 Hp2 HP HP (bshape_refl P))
    as (d & Hd & Hsd & Ed).
  destruct (tbin_has_shape Rmult d x P X X Hsd Hx HP HX (bshape_param n c h w))
    as (dpx & Hdpx & Hsdpx & Edpx).
  destruct (tbin_has_shape Rmult beta dpx _ X X Hbeta Hsdpx HB HX HbX)
    as (bd & Hbd & Hsbd & Ebd).
  assert (has_shape (torch_sigmoid bd) X = true) as Hssig
    by (unfold torch_sigmoid; by rewrite has_shape_tmap).
  destruct (tbin_has_shape Rmult dpx (torch_sigmoid bd) X X X Hsdpx Hssig HX HX
              (bshape_refl X)) as (m & Hm & Hsm & Em).
  destruct (tbin_has_shape Rmult p2 x P X X Hp2 Hx HP HX (bshape_param n c h w))
    as (q & Hq & Hsq & Eq).
  destruct (tbin_has_shape Rplus m q X X X Hsm Hsq HX HX (bshape_refl X))
    as (out & Hout & Hsout & Eout).
  exists out. split.
  { unfold AconC.forward, tsub, tmul, tadd. simpl.
    rewrite Hd. simpl. rewrite Hdpx. simpl. rewrite Hbd. simpl.
    rewrite Hm. simpl. rewrite Hq. simpl. exact Hout. }
  split; [done |].
  intros idx v Hv.
  destruct (index4 idx n c h w (tget_Some_lt out X idx v Hsout Hv))
    as (i & j & k & l & -> & Hi & Hj & Hk & Hl).
  destruct (tget_same_shape out x X [i; j; k; l] Hsout Hx (ex_intro _ v Hv))
    as [xv Hxv].
  destruct (tget_param p1 c j Hp1 Hj) as [a Ha].
  destruct (tget_param p2 c j Hp2 Hj) as [b Hb].
  destruct (Eout _ _ (tget_bget _ _ _ Hv)) as (vm & vq & Hvm & Hvq & ->).
  destruct (Em _ _ Hvm) as (vdpx & vs & Hvdpx & Hvs & ->).
  unfold torch_sigmoid in Hvs. rewrite bget_tmap in Hvs.
  destruct (bget bd [i; j; k; l]) as [vbd |] eqn:Hvbd; simpl in Hvs; [| done].
  injection Hvs as <-.
  destruct (Ebd _ _ Hvbd) as (be & vdpx' & Hbe & Hvdpx' & ->).
  rewrite Hvdpx in Hvdpx'. injection Hvdpx' as <-.
  destruct (Edpx _ _ Hvdpx) as (vd & vx & Hvd & Hvx & ->).
  destruct (Ed _ _ Hvd) as (va & vb & Hva & Hvb & ->).
  destruct (Eq _ _ Hvq) as (vb' & vx' & Hvb' & Hvx' & ->).
  rewrite (bget_param p1 c i j k l a Hp1 Ha) in Hva. injection Hva as <-.
  rewrite (bget_param p2 c i j k l b Hp2 Hb) in Hvb, Hvb'.
  injection Hvb as <-. injection Hvb' as <-.
  rewrite (tget_bget _ _ _ Hxv) in Hvx, Hvx'.
  injection Hvx as <-. injection Hvx' as <-.
  by exists i, j, k, l, xv, a, b, be.
Qed.

(** The same, read from the input side, for [AconC]. *)
Lemma aconc_entry (self : AconC.t) (x : Tensor) (n c h w : nat) :
  (0 < n)%nat -> (0 < c)%nat -> (0 < h)%nat -> (0 < w)%nat ->
  has_shape (AconC.p1 self) [1; c; 1; 1]%nat = true ->
  has_shape (AconC.p2 self) [1; c; 1; 1]%nat = true ->
  has_shape (AconC.beta self) [1; c; 1; 1]%nat = true ->
  has_shape x [n; c; h; w] = true ->
  exists out,
    AconC.forward self x = Some out /\
    has_shape out [n; c; h; w] = true /\
    forall i j k l xv a b be,
      tget x [i; j; k; l] = Some xv ->
      tget (AconC.p1 self) [0; j; 0; 0]%nat = Some a ->
      tget (AconC.p2 self) [0; j; 0; 0]%nat = Some b ->
      tget (AconC.beta self) [0; j; 0; 0]%nat = Some be ->
      tget out [i; j; k; l]
      = Some ((a - b) * xv * sigmoid (be * ((a - b) * xv)) + b * xv).
Proof.
  intros Hn Hc Hh Hw Hp1 Hp2 Hbeta Hx. destruct self as [p1 p2 beta].
  cbn [AconC.p1 AconC.p2 AconC.beta] in *.
  destruct (acon_entries p1 p2 beta x n c h w 1 Hn Hc Hh Hw Hp1 Hp2 Hbeta
              (or_introl eq_refl) Hx) as (out & Hout & Hsout & Hinv).
  exists out. split; [done |]. split; [done |].
  intros i j k l xv a b be Hxv Ha Hb Hbe.
  destruct (tget_same_shape x out _ [i; j; k; l] Hx Hsout (ex_intro _ xv Hxv))
    as [v Hv].
  destruct (Hinv _ _ Hv) as (i' & j' & k' & l' & xv' & a' & b' & be' & Hidx & Hxv'
                             & Ha' & Hb' & Hbe' & ->).
  injection Hidx as <- <- <- <-.
  rewrite (bget_param beta c i j k l be Hbeta Hbe) in Hbe'.
  rewrite Hv. congruence.
Qed.

(** *** AconC: special parameter values *)

(** X1. When [p1] and [p2] are the same tensor, [AconC.forward] is the
    per-channel linear map [p2 * x], whatever [beta] is. *)
Theorem aconc_equal_branches_linear (self : AconC.t) (x : Tensor) (n c h w : nat) :
  (0 < n)%nat -> (0 < c)%nat -> (0 < h)%nat -> (0 < w)%nat ->
  has_shape (AconC.p1 self) [1; c; 1; 1]%nat = true ->
  has_shape (AconC.beta self) [1; c; 1; 1]%nat = true ->
  has_shape x [n; c; h; w] = true ->
  AconC.p1 self = AconC.p2 self ->
  AconC.forward self x = tmul (AconC.p2 self) x /\
  is_Some (AconC.forward self x).
Proof.
  intros Hn Hc Hh Hw Hp1 Hbeta Hx Heq. destruct self as [p1 p2 beta].
  cbn [AconC.p1 AconC.p2 AconC.beta] in *. subst p2.
  destruct (acon_entries p1 p1 beta x n c h w 1 Hn Hc Hh Hw Hp1 Hp1 Hbeta
              (or_introl eq_refl) Hx) as (out & Hout & Hsout & Hinv).
  destruct (tbin_has_shape Rmult p1 x [1; c; 1; 1]%nat [n; c; h; w] [n; c; h; w]
              Hp1 Hx ltac:(repeat constructor; lia) ltac:(repeat constructor; lia)
              (bshape_param n c h w)) as (q & Hq & Hsq & Eq).
  rewrite Hout. unfold tmul. rewrite Hq. split; [| by eexists]. f_equal.
  apply (tensor_ext out q [n; c; h; w] Hsout Hsq). intros idx v Hv.
  destruct (Hinv _ _ Hv) as (i & j & k & l & xv & a & b & be & -> & Hxv & Ha & Hb
                             & Hbe & ->).
  rewrite Ha in Hb. injection Hb as <-.
  destruct (tget_same_shape out q _ [i; j; k; l] Hsout Hsq (ex_intro _ _ Hv))
    as [v' Hv'].
  destruct (Eq _ _ (tget_bget _ _ _ Hv')) as (va & vx & Hva & Hvx & ->).
  rewrite (bget_param p1 c i j k l a Hp1 Ha) in Hva. injection Hva as <-.
  rewrite (tget_bget _ _ _ Hxv) in Hvx. injection Hvx as <-.
  rewrite Hv'. f_equal. ring.
Qed.

Lemma aconc_equal_branches_linear_witness :
  AconC.forward
    {| AconC.p1 := Dim [Dim [Dim [Dim [Scalar 2]]; Dim [Dim [Scalar 3]]]];
       AconC.p2 := Dim [Dim [Dim [Dim [Scalar 2]]; Dim [Dim [Scalar 3]]]];
       AconC.beta := Dim [Dim [Dim [Dim [Scalar 7]]; Dim [Dim [Scalar (-1)]]]] |}
    (Dim [Dim [Dim [Dim [Scalar 1; Scalar (-1)]]; Dim [Dim [Scalar 4; Scalar 5]]]])
  = tmul (Dim [Dim [Dim [Dim [Scalar 2]]; Dim [Dim [Scalar 3]]]])
      (Dim [Dim [Dim [Dim [Scalar 1; Scalar (-1)]]; Dim [Dim [Scalar 4; Scalar 5]]]]).
Proof.
  exact (proj1 (aconc_equal_branches_linear
           {| AconC.p1 := Dim [Dim [Dim [Dim [Scalar 2]]; Dim [Dim [Scalar 3]]]];
              AconC.p2 := Dim [Dim [Dim [Dim [Scalar 2]]; Dim [Dim [Scalar 3]]]];
              AconC.beta := Dim [Dim [Dim [Dim [Scalar 7]]; Dim [Dim [Scalar (-1)]]]] |}
           (Dim [Dim [Dim [Dim [Scalar 1; Scalar (-1)]]; Dim [Dim [Scalar 4; Scalar 5]]]])
           1%nat 2%nat 1%nat 2%nat
           ltac:(lia) ltac:(lia) ltac:(lia) ltac:(lia)
           ltac:(reflexivity) ltac:(reflexivity) ltac:(reflexivity)
           ltac:(reflexivity))).
Defined.

(** X2. A freshly constructed [AconC] ([beta] all ones) whose [p1] is all
    ones and whose [p2] is all zeros computes [SiLU.forward]. *)
Theorem aconc_ones_zeros_is_silu (x : Tensor) (n c h w : nat) :
  (0 < n)%nat -> (0 < c)%nat -> (0 < h)%nat -> (0 < w)%nat ->
  has_shape x [n; c; h; w] = true ->
  AconC.forward
    (AconC_init c (torch_ones [1; c; 1; 1]%nat) (torch_zeros [1; c; 1; 1]%nat)) x
  = SiLU.forward x.
Proof.
  intros Hn Hc Hh Hw Hx. unfold AconC_init.
  set (P := [1; c; 1; 1]%nat).
  destruct (acon_entries (torch_ones P) (torch_zeros P) (torch_ones P) x n c h w 1
              Hn Hc Hh Hw (has_shape_torch_full P 1) (has_shape_torch_full P 0)
              (has_shape_torch_full P 1) (or_introl eq_refl) Hx)
    as (out & Hout & Hsout & Hinv).
  rewrite Hout, SiLU_forward_eval. f_equal.
  apply (tensor_ext out (tmap silu x) [n; c; h; w] Hsout).
  { by rewrite has_shape_tmap. }
  intros idx v Hv.
  destruct (Hinv _ _ Hv) as (i & j & k & l & xv & a & b & be & -> & Hxv & Ha & Hb
                             & Hbe & ->).
  assert (Forall2 lt [0; j; 0; 0]%nat P) as Hidx.
  { pose proof (tget_Some_lt _ _ _ _ (has_shape_torch_full P 1) Ha) as H. exact H. }
  unfold torch_ones, torch_zeros in *.
  rewrite (tget_torch_full P _ 1 Hidx) in Ha. injection Ha as <-.
  rewrite (tget_torch_full P _ 0 Hidx) in Hb. injection Hb as <-.
  rewrite (bget_param (torch_full P 1) c i j k l 1 (has_shape_torch_full P 1)
             (tget_torch_full P _ 1 Hidx)) in Hbe. injection Hbe as <-.
  rewrite tget_tmap, Hxv. simpl. f_equal. unfold silu.
  replace (1 * ((1 - 0) * xv)) with xv by ring. ring.
Qed.

Lemma aconc_ones_zeros_is_silu_witness :
  AconC.forward
    (AconC_init 2 (torch_ones [1; 2; 1; 1]%nat) (torch_zeros [1; 2; 1; 1]%nat))
    (Dim [Dim [Dim [Dim [Scalar 1; Scalar (-1)]]; Dim [Dim [Scalar 4; Scalar 5]]]])
  = SiLU.forward
      (Dim [Dim [Dim [Dim [Scalar 1; Scalar (-1)]]; Dim [Dim [Scalar 4; Scalar 5]]]]).
Proof.
  exact (aconc_ones_zeros_is_silu
           (Dim [Dim [Dim [Dim [Scalar 1; Scalar (-1)]]; Dim [Dim [Scalar 4; Scalar 5]]]])
           1%nat 2%nat 1%nat 2%nat
           ltac:(lia) ltac:(lia) ltac:(lia) ltac:(lia) ltac:(reflexivity)).
Defined.

Lemma sigmoid_0 : sigmoid 0 = 1 / 2.
Proof. unfold sigmoid. rewrite Ropp_0, exp_0. lra. Qed.

(** X3. On a channel whose [beta] is 0 the gate is 1/2: [AconC.forward]
    returns the mean of the two linear branches, [(p1 + p2) / 2 * x]. *)
Theorem aconc_beta_zero_is_mean (self : AconC.t) (x : Tensor) (n c h w : nat) :
  (0 < n)%nat -> (0 < c)%nat -> (0 < h)%nat -> (0 < w)%nat ->
  has_shape (AconC.p1 self) [1; c; 1; 1]%nat = true ->
  has_shape (AconC.p2 self) [1; c; 1; 1]%nat = true ->
  has_shape (AconC.beta self) [1; c; 1; 1]%nat = true ->
  has_shape x [n; c; h; w] = true ->
  exists out,
    AconC.forward self x = Some out /\
    forall i j k l xv a b,
      tget x [i; j; k; l] = Some xv ->
      tget (AconC.p1 self) [0; j; 0; 0]%nat = Some a ->
      tget (AconC.p2 self) [0; j; 0; 0]%nat = Some b ->
      tget (AconC.beta self) [0; j; 0; 0]%nat = Some 0 ->
      tget out [i; j; k; l] = Some ((a + b) / 2 * xv).
Proof.
  intros Hn Hc Hh Hw Hp1 Hp2 Hbeta Hx.
  destruct (aconc_entry self x n c h w Hn Hc Hh Hw Hp1 Hp2 Hbeta Hx)
    as (out & Hout & _ & Hentry).
  exists out. split; [done |]. intros i j k l xv a b Hxv Ha Hb Hbe.
  rewrite (Hentry i j k l xv a b 0 Hxv Ha Hb Hbe). f_equal.
  rewrite Rmult_0_l, sigmoid_0. lra.
Qed.

Lemma aconc_beta_zero_is_mean_witness :
  exists out,
    AconC.forward
      {| AconC.p1 := Dim [Dim [Dim [Dim [Scalar 2]]; Dim [Dim [Scalar 1]]]];
         AconC.p2 := Dim [Dim [Dim [Dim [Scalar 0]]; Dim [Dim [Scalar 3]]]];
         AconC.beta := Dim [Dim [Dim [Dim [Scalar 1]]; Dim [Dim [Scalar 0]]]] |}
      (Dim [Dim [Dim [Dim [Scalar 1; Scalar (-1)]]; Dim [Dim [Scalar 4; Scalar 5]]]])
    = Some out /\
    tget out [0; 1; 0; 1]%nat = Some ((1 + 3) / 2 * 5).
Proof.
  destruct (aconc_beta_zero_is_mean
              {| AconC.p1 := Dim [Dim [Dim [Dim [Scalar 2]]; Dim [Dim [Scalar 1]]]];
                 AconC.p2 := Dim [Dim [Dim [Dim [Scalar 0]]; Dim [Dim [Scalar 3]]]];
                 AconC.beta := Dim [Dim [Dim [Dim [Scalar 1]]; Dim [Dim [Scalar 0]]]] |}
              (Dim [Dim [Dim [Dim [Scalar 1; Scalar (-1)]]; Dim [Dim [Scalar 4; Scalar 5]]]])
              1%nat 2%nat 1%nat 2%nat
              ltac:(lia) ltac:(lia) ltac:(lia) ltac:(lia)
              ltac:(reflexivity) ltac:(reflexivity) ltac:(reflexivity)
              ltac:(reflexivity))
    as (out & Hout & Hentry).
  exists out. split; [exact Hout |].
  exact (Hentry 0%nat 1%nat 0%nat 1%nat 5 1 3
           ltac:(reflexivity) ltac:(reflexivity) ltac:(reflexivity)
           ltac:(reflexivity)).
Defined.

(** X4. Every entry of [AconC.forward] lies between the two linear branches
    [p1 * x] and [p2 * x] of its channel. *)
Theorem aconc_between_branches (self : AconC.t) (x : Tensor) (n c h w : nat) :
  (0 < n)%nat -> (0 < c)%nat -> (0 < h)%nat -> (0 < w)%nat ->
  has_shape (AconC.p1 self) [1; c; 1; 1]%nat = true ->
  has_shape (AconC.p2 self) [1; c; 1; 1]%nat = true ->
  has_shape (AconC.beta self) [1; c; 1; 1]%nat = true ->
  has_shape x [n; c; h; w] = true ->
  exists out,
    AconC.forward self x = Some out /\
    forall i j k l xv a b,
      tget x [i; j; k; l] = Some xv ->
      tget (AconC.p1 self) [0; j; 0; 0]%nat = Some a ->
      tget (AconC.p2 self) [0; j; 0; 0]%nat = Some b ->
      exists v, tget out [i; j; k; l] = Some v /\
        Rmin (a * xv) (b * xv) <= v <= Rmax (a * xv) (b * xv).
Proof.
  intros Hn Hc Hh Hw Hp1 Hp2 Hbeta Hx.
  destruct (aconc_entry self x n c h w Hn Hc Hh Hw Hp1 Hp2 Hbeta Hx)
    as (out & Hout & _ & Hentry).
  exists out. split; [done |]. intros i j k l xv a b Hxv Ha Hb.
  assert (j < c)%nat as Hj.
  { pose proof (tget_Some_lt _ _ _ _ Hp1 Ha) as H.
    apply index4 in H as (? & j' & ? & ? & [= <- <- <- <-] & ? & ? & ? & ?). done. }
  destruct (tget_param (AconC.beta self) c j Hbeta Hj) as [be Hbe].
  eexists. split; [exact (Hentry i j k l xv a b be Hxv Ha Hb Hbe) |].
  pose proof (sigmoid_range (be * ((a - b) * xv))) as [Hg0 Hg1].
  set (g := sigmoid (be * ((a - b) * xv))) in *.
  unfold Rmin, Rmax. destruct (Rle_dec (a * xv) (b * xv)); split; nra.
Qed.

Lemma aconc_between_branches_witness :
  exists out v,
    AconC.forward
      {| AconC.p1 := Dim [Dim [Dim [Dim [Scalar 2]]; Dim [Dim [Scalar 1]]]];
         AconC.p2 := Dim [Dim [Dim [Dim [Scalar 0]]; Dim [Dim [Scalar 3]]]];
         AconC.beta := Dim [Dim [Dim [Dim [Scalar 1]]; Dim [Dim [Scalar 1]]]] |}
      (Dim [Dim [Dim [Dim [Scalar 1; Scalar (-1)]]; Dim [Dim [Scalar 4; Scalar 5]]]])
    = Some out /\
    tget out [0; 1; 0; 1]%nat = Some v /\
    Rmin (1 * 5) (3 * 5) <= v <= Rmax (1 * 5) (3 * 5).
Proof.
  destruct (aconc_between_branches
              {| AconC.p1 := Dim [Dim [Dim [Dim [Scalar 2]]; Dim [Dim [Scalar 1]]]];
                 AconC.p2 := Dim [Dim [Dim [Dim [Scalar 0]]; Dim [Dim [Scalar 3]]]];
                 AconC.beta := Dim [Dim [Dim [Dim [Scalar 1]]; Dim [Dim [Scalar 1]]]] |}
              (Dim [Dim [Dim [Dim [Scalar 1; Scalar (-1)]]; Dim [Dim [Scalar 4; Scalar 5]]]])
              1%nat 2%nat 1%nat 2%nat
              ltac:(lia) ltac:(lia) ltac:(lia) ltac:(lia)
              ltac:(reflexivity) ltac:(reflexivity) ltac:(reflexivity)
              ltac:(reflexivity))
    as (out & Hout & Hentry).
  destruct (Hentry 0%nat 1%nat 0%nat 1%nat 5 1 3
              ltac:(reflexivity) ltac:(reflexivity) ltac:(reflexivity))
    as (v & Hv & Hbound).
  exists out, v. split; [exact Hout |]. split; [exact Hv | exact Hbound].
Defined.

(** *** Bounds on the self-gated activations *)

Lemma exp_quadratic (t : R) : 0 < t -> 1 + t + t * t / 4 < exp t.
Proof.
  intros Ht.
  assert (exp t = exp (t / 2) * exp (t / 2)) as ->
    by (rewrite <- exp_plus; f_equal; lra).
  pose proof (exp_ineq1 (t / 2) ltac:(lra)) as H. nra.
Qed.

Lemma gated_envelope (x g : R) : 0 < g < 1 -> Rmin x 0 <= x * g <= Rmax x 0.
Proof.
  intros [Hg0 Hg1]. unfold Rmin, Rmax. destruct (Rle_dec x 0); split; nra.
Qed.

Lemma silu_lower (x : R) : - (1 / 2) < silu x.
Proof.
  unfold silu. pose proof (sigmoid_range x) as [Hs0 Hs1].
  destruct (Rle_dec 0 x) as [Hx | Hx]; [nra |].
  unfold sigmoid. pose proof (exp_quadratic (- x) ltac:(lra)) as He.
  pose proof (exp_pos (- x)) as Hp.
  apply (Rmult_lt_reg_r (1 + exp (- x))); [lra |].
  replace (x * (1 / (1 + exp (- x))) * (1 + exp (- x))) with x by (field; lra).
  pose proof (Rle_0_sqr (1 + x / 2)) as Hsq. unfold Rsqr in Hsq. nra.
Qed.

Lemma tanh_softplus (x : R) :
  x <= 20 ->
  tanh (softplus x)
  = (2 * exp x + exp x * exp x) / (2 + 2 * exp x + exp x * exp x).
Proof.
  intros Hx. pose proof (exp_pos x) as He. rewrite softplus_below by done.
  unfold tanh, sinh, cosh.
  rewrite exp_Ropp, exp_ln by lra. field. nra.
Qed.

Lemma tanh_softplus_le_exp (x : R) : x <= 20 -> tanh (softplus x) <= exp x.
Proof.
  intros Hx. rewrite tanh_softplus by done. pose proof (exp_pos x) as He.
  assert (0 < 2 + 2 * exp x + exp x * exp x) as Hd by nra.
  apply (Rmult_le_reg_r (2 + 2 * exp x + exp x * exp x)); [done |].
  unfold Rdiv. rewrite Rmult_assoc, Rinv_l by lra. nra.
Qed.

Lemma mish_lower (x : R) : - (1 / 2) < mish x.
Proof.
  unfold mish. pose proof (tanh_softplus_range x) as [Ht0 Ht1].
  destruct (Rle_dec 0 x) as [Hx | Hx]; [nra |].
  pose proof (tanh_softplus_le_exp x ltac:(lra)) as Hle.
  pose proof (exp_quadratic (- x) ltac:(lra)) as He.
  pose proof (exp_pos x) as Hp. pose proof (exp_pos (- x)) as Hn.
  assert (exp x * exp (- x) = 1) as Hinv.
  { rewrite <- exp_plus. replace (x + - x) with 0 by lra. apply exp_0. }
  assert (x * exp x <= x * tanh (softplus x)) as H1 by nra.
  assert (- (1 / 2) < x * exp x) as H2.
  { apply (Rmult_lt_reg_r (exp (- x))); [done |].
    replace (x * exp x * exp (- x)) with x by (rewrite Rmult_assoc, Hinv; lra).
    pose proof (Rle_0_sqr (1 + x / 2)) as Hsq. unfold Rsqr in Hsq. nra. }
  lra.
Qed.

(** Entries of the output of a module that applies [k] to every entry. *)
Lemma tmap_entry (k : R -> R) (x : Tensor) (idx : list nat) (xv : R) :
  tget x idx = Some xv -> tget (tmap k x) idx = Some (k xv).
Proof. intros Hxv. by rewrite tget_tmap, Hxv. Qed.

(** X5. [SiLU.forward] never fails; each output entry has the sign of the
    input entry, is no larger in magnitude, and is above -1/2. *)
Theorem silu_forward_bounds (x : Tensor) :
  exists out,
    SiLU.forward x = Some out /\
    forall idx xv, tget x idx = Some xv ->
      exists v, tget out idx = Some v /\
        Rmin xv 0 <= v <= Rmax xv 0 /\ - (1 / 2) < v.
Proof.
  exists (tmap silu x). split; [apply SiLU_forward_eval |].
  intros idx xv Hxv. exists (silu xv). split; [by apply tmap_entry |].
  split; [apply gated_envelope, sigmoid_range | apply silu_lower].
Qed.

(** X6. [Mish.forward] never fails; on both branches of [F.softplus] each
    output entry has the sign of the input entry, is no larger in magnitude,
    and is above -1/2. *)
Theorem mish_forward_bounds (x : Tensor) :
  exists out,
    Mish.forward x = Some out /\
    forall idx xv, tget x idx = Some xv ->
      exists v, tget out idx = Some v /\
        Rmin xv 0 <= v <= Rmax xv 0 /\ - (1 / 2) < v.
Proof.
  exists (tmap mish x). split; [apply Mish_forward_eval |].
  intros idx xv Hxv. exists (mish xv). split; [by apply tmap_entry |].
  split; [apply gated_envelope, tanh_softplus_range | apply mish_lower].
Qed.

(** *** Hardswish *)

Lemma hardswish_bounds (v : R) : - (3 / 8) <= hardswish v <= Rmax v 0.
Proof.
  unfold hardswish, Rmax.
  destruct (Rle_dec v (-3)); [destruct (Rle_dec v 0); lra |].
  destruct (Rle_dec 3 v); [destruct (Rle_dec v 0); lra |].
  pose proof (Rle_0_sqr (2 * v + 3)) as Hsq. unfold Rsqr in Hsq.
  destruct (Rle_dec v 0); split; nra.
Qed.

(** X7. [Hardswish.forward] never fails; each output entry is at least -3/8
    and at most the positive part of the input entry. *)
Theorem hardswish_forward_bounds (x : Tensor) :
  exists out,
    Hardswish.forward x = Some out /\
    forall idx xv, tget x idx = Some xv ->
      exists v, tget out idx = Some v /\ - (3 / 8) <= v <= Rmax xv 0.
Proof.
  exists (tmap hardswish x). split; [apply Hardswish_forward_eval |].
  intros idx xv Hxv. exists (hardswish xv). split; [by apply tmap_entry |].
  apply hardswish_bounds.
Qed.

Lemma hardsigmoid_kernel (v : R) : v * hardsigmoid v = hardswish v.
Proof.
  unfold hardsigmoid, hardswish.
  destruct (Rle_dec v (-3)); [lra |]. destruct (Rle_dec 3 v); [lra |]. lra.
Qed.

(** X8. The variant kept in the comment of [Hardswish.forward],
    [x * F.hardsigmoid(x)], computes the same tensor as the line in use. *)
Theorem hardswish_variants_agree (x : Tensor) :
  Hardswish_forward_hardsigmoid x = Hardswish.forward x.
Proof.
  rewrite Hardswish_forward_eval.
  unfold Hardswish_forward_hardsigmoid, tmul, F_hardsigmoid.
  rewrite (tbin_self_l Rmult hardsigmoid). f_equal.
  apply tmap_ext, hardsigmoid_kernel.
Qed.

(** *** FReLU *)

(** X9. When the funnel condition [bn(conv(x))] has the shape of [x],
    [FReLU.forward] succeeds, keeps the shape, and each output entry is the
    larger of the input entry and the funnel entry: it is never below the
    input. *)
Theorem frelu_forward_max (self : FReLU.t) (x c tx : Tensor) (s : list nat) :
  FReLU.conv self x = Some c -> FReLU.bn self c = Some tx ->
  has_shape x s = true -> has_shape tx s = true ->
  exists out,
    FReLU.forward self x = Some out /\
    has_shape out s = true /\
    forall idx xv tv, tget x idx = Some xv -> tget tx idx = Some tv ->
      exists v, tget out idx = Some v /\
        xv <= v /\ tv <= v /\ (v = xv \/ v = tv).
Proof.
  intros Hc Htx Hx Hs.
  destruct (tbin_same_shape Rmax x tx s Hx Hs) as (out & Hout & Hsout & Hentry).
  exists out. split.
  { unfold FReLU.forward. rewrite Hc. simpl. rewrite Htx. simpl. exact Hout. }
  split; [done |]. intros idx xv tv Hxv Htv.
  exists (Rmax xv tv). split; [by apply Hentry |].
  split; [apply Rmax_l |]. split; [apply Rmax_r |].
  unfold Rmax. destruct (Rle_dec xv tv); [by right | by left].
Qed.

Lemma frelu_forward_max_witness :
  exists out,
    FReLU.forward
      {| FReLU.conv := fun t => Some (tmap (fun v => 2 * v) t);
         FReLU.bn := fun t => Some (tmap (fun v => v - 1) t) |}
      (Dim [Dim [Scalar 0; Scalar 3]]) = Some out /\
    exists v, tget out [0; 1]%nat = Some v /\ 3 <= v.
Proof.
  destruct (frelu_forward_max
              {| FReLU.conv := fun t => Some (tmap (fun v => 2 * v) t);
                 FReLU.bn := fun t => Some (tmap (fun v => v - 1) t) |}
              (Dim [Dim [Scalar 0; Scalar 3]])
              (Dim [Dim [Scalar (2 * 0); Scalar (2 * 3)]])
              (Dim [Dim [Scalar (2 * 0 - 1); Scalar (2 * 3 - 1)]])
              [1; 2]%nat
              ltac:(reflexivity) ltac:(reflexivity) ltac:(reflexivity)
              ltac:(reflexivity))
    as (out & Hout & _ & Hentry).
  exists out. split; [exact Hout |].
  destruct (Hentry [0; 1]%nat 3 (2 * 3 - 1) ltac:(reflexivity) ltac:(reflexivity))
    as (v & Hv & Hxv & _).
  exists v. split; [exact Hv | exact Hxv].
Defined.

(** *** MetaAconC *)

(** The two means of [MetaAconC.forward], over the rows and then over the
    columns, leave one number per image and channel: the mean of the
    plane. *)
Lemma spatial_mean_spec (x : Tensor) (n c h w : nat) :
  (0 < h)%nat -> (0 < w)%nat -> has_shape x [n; c; h; w] = true ->
  exists y1 y,
    torch_mean 2 x = Some y1 /\ torch_mean 3 y1 = Some y /\
    has_shape y [n; c; 1; 1]%nat = true /\
    forall i j plane, tat x [i; j] = Some plane ->
      tget y [i; j; 0; 0]%nat = Some (tsum plane / (INR h * INR w)).
Proof.
  intros Hh Hw Hx.
  destruct (torch_mean_spec x 2 [n; c; h; w] h Hx eq_refl Hh) as (y1 & Hy1 & Hs1 & _).
  destruct (torch_mean_spec y1 3 [n; c; 1; w]%nat w Hs1 eq_refl Hw)
    as (y & Hy & Hs & _).
  exists y1, y. split; [done |]. split; [done |]. split; [done |].
  intros i j plane Hplane.
  destruct (torch_mean_tat [i; j] 0 x y1 plane Hy1 Hplane) as (r1 & Hr1 & Hm1).
  destruct (torch_mean_tat [i; j] 1 y1 y r1 Hy Hr1) as (r2 & Hr2 & Hm2).
  pose proof (has_shape_tat x plane _ [i; j] Hx Hplane) as Hsp. simpl in Hsp.
  destruct (torch_mean_spec plane 0 [h; w] h Hsp eq_refl Hh) as (r1' & Hm1' & Hsr1 & Hsum1).
  rewrite Hm1 in Hm1'. injection Hm1' as <-.
  destruct (torch_mean_spec r1 1 [1; w]%nat w Hsr1 eq_refl Hw)
    as (r2' & Hm2' & Hsr2 & Hsum2).
  rewrite Hm2 in Hm2'. injection Hm2' as <-.
  change (tget y [i; j; 0; 0]%nat) with (tget y ([i; j] ++ [0; 0]%nat)).
  rewrite (tget_tat y r2 [i; j] [0; 0]%nat Hr2).
  simpl in Hsr2.
  apply has_shape_Dim_inv in Hsr2 as (l1 & -> & Hl1 & Hf1).
  destruct l1 as [| q [| ? ?]]; try done.
  apply Forall_cons in Hf1 as [(l2 & -> & Hl2 & Hf2)%has_shape_Dim_inv _].
  destruct l2 as [| e [| ? ?]]; try done.
  apply Forall_cons in Hf2 as [[m ->]%has_shape_Scalar_inv _].
  simpl in *. f_equal.
  pose proof (lt_0_INR h Hh). pose proof (lt_0_INR w Hw).
  assert (m = tsum plane / INR h / INR w) as -> by (rewrite <- Hsum1; lra).
  field. lra.
Qed.

(** X10. [MetaAconC.forward] is [AconC.forward] with a [beta] computed from
    the input: the sigmoid of what [fc2(fc1(y))] returns, where [y] holds,
    for every image and channel, the mean of the entries of that plane. *)
Theorem metaaconc_is_aconc_on_plane_means
    (self : MetaAconC.t) (x : Tensor) (n c h w : nat) :
  (0 < h)%nat -> (0 < w)%nat -> has_shape x [n; c; h; w] = true ->
  exists y,
    has_shape y [n; c; 1; 1]%nat = true /\
    (forall i j plane, tat x [i; j] = Some plane ->
       tget y [i; j; 0; 0]%nat = Some (tsum plane / (INR h * INR w))) /\
    MetaAconC.forward self x
    = (z ← MetaAconC.fc1 self y;
       z ← MetaAconC.fc2 self z;
       AconC.forward {| AconC.p1 := MetaAconC.p1 self;
                        AconC.p2 := MetaAconC.p2 self;
                        AconC.beta := torch_sigmoid z |} x).
Proof.
  intros Hh Hw Hx.
  destruct (spatial_mean_spec x n c h w Hh Hw Hx) as (y1 & y & Hy1 & Hy & Hs & Hmean).
  exists y. split; [done |]. split; [done |].
  unfold MetaAconC.forward. rewrite Hy1. simpl. rewrite Hy. done.
Qed.

Lemma metaaconc_is_aconc_on_plane_means_witness :
  exists y,
    tget y [0; 1; 0; 0]%nat = Some ((4 + (5 + 0) + 0) / (INR 1 * INR 2)) /\
    MetaAconC.forward
      {| MetaAconC.p1 := Dim [Dim [Dim [Dim [Scalar 2]]; Dim [Dim [Scalar 1]]]];
         MetaAconC.p2 := Dim [Dim [Dim [Dim [Scalar 0]]; Dim [Dim [Scalar 3]]]];
         MetaAconC.fc1 := fun t => Some t;
         MetaAconC.fc2 := fun t => Some t |}
      (Dim [Dim [Dim [Dim [Scalar 1; Scalar (-1)]]; Dim [Dim [Scalar 4; Scalar 5]]]])
    = AconC.forward
        {| AconC.p1 := Dim [Dim [Dim [Dim [Scalar 2]]; Dim [Dim [Scalar 1]]]];
           AconC.p2 := Dim [Dim [Dim [Dim [Scalar 0]]; Dim [Dim [Scalar 3]]]];
           AconC.beta := torch_sigmoid y |}
        (Dim [Dim [Dim [Dim [Scalar 1; Scalar (-1)]]; Dim [Dim [Scalar 4; Scalar 5]]]]).
Proof.
  destruct (metaaconc_is_aconc_on_plane_means
              {| MetaAconC.p1 := Dim [Dim [Dim [Dim [Scalar 2]]; Dim [Dim [Scalar 1]]]];
                 MetaAconC.p2 := Dim [Dim [Dim [Dim [Scalar 0]]; Dim [Dim [Scalar 3]]]];
                 MetaAconC.fc1 := fun t => Some t;
                 MetaAconC.fc2 := fun t => Some t |}
              (Dim [Dim [Dim [Dim [Scalar 1; Scalar (-1)]]; Dim [Dim [Scalar 4; Scalar 5]]]])
              1%nat 2%nat 1%nat 2%nat ltac:(lia) ltac:(lia) ltac:(reflexivity))
    as (y & _ & Hmean & Hfwd).
  exists y. split; [| exact Hfwd].
  exact (Hmean 0%nat 1%nat (Dim [Dim [Scalar 4; Scalar 5]]) ltac:(reflexivity)).
Defined.

(** X11. With [p1], [p2] of shape [(1, c, 1, 1)] and [fc1], [fc2] that
    return a tensor of shape [(n, c, 1, 1)] on one, [MetaAconC.forward]
    succeeds on a feature map of shape [(n, c, h, w)] and keeps its shape.
    Its [beta] has one value per image and channel, strictly between 0 and
    1, and each output entry is the convex combination
    [g * (p1 * x) + (1 - g) * (p2 * x)] with the gate
    [g = sigmoid(beta * (p1 - p2) * x)] strictly between 0 and 1. *)
Theorem metaaconc_forward_convex_combination
    (self : MetaAconC.t) (x : Tensor) (n c h w : nat) :
  (0 < n)%nat -> (0 < c)%nat -> (0 < h)%nat -> (0 < w)%nat ->
  has_shape (MetaAconC.p1 self) [1; c; 1; 1]%nat = true ->
  has_shape (MetaAconC.p2 self) [1; c; 1; 1]%nat = true ->
  (forall y, has_shape y [n; c; 1; 1]%nat = true ->
     exists z1 z, MetaAconC.fc1 self y = Some z1 /\
       MetaAconC.fc2 self z1 = Some z /\
       has_shape z [n; c; 1; 1]%nat = true) ->
  has_shape x [n; c; h; w] = true ->
  exists out beta,
    MetaAconC.forward self x = Some out /\
    has_shape out [n; c; h; w] = true /\
    has_shape beta [n; c; 1; 1]%nat = true /\
    forall i j k l xv a b be,
      tget x [i; j; k; l] = Some xv ->
      tget (MetaAconC.p1 self) [0; j; 0; 0]%nat = Some a ->
      tget (MetaAconC.p2 self) [0; j; 0; 0]%nat = Some b ->
      tget beta [i; j; 0; 0]%nat = Some be ->
      0 < be < 1 /\
      0 < sigmoid (be * ((a - b) * xv)) < 1 /\
      tget out [i; j; k; l]
      = Some (sigmoid (be * ((a - b) * xv)) * (a * xv)
              + (1 - sigmoid (be * ((a - b) * xv))) * (b * xv)).
Proof.
  intros Hn Hc Hh Hw Hp1 Hp2 Hfc Hx.
  destruct (spatial_mean_spec x n c h w Hh Hw Hx) as (y1 & y & Hy1 & Hy & Hs & _).
  destruct (Hfc y Hs) as (z1 & z & Hz1 & Hz & Hsz).
  assert (has_shape (torch_sigmoid z) [n; c; 1; 1]%nat = true) as Hsb
    by (unfold torch_sigmoid; by rewrite has_shape_tmap).
  destruct (acon_entries (MetaAconC.p1 self) (MetaAconC.p2 self) (torch_sigmoid z)
              x n c h w n Hn Hc Hh Hw Hp1 Hp2 Hsb (or_intror eq_refl) Hx)
    as (out & Hout & Hsout & Hinv).
  exists out, (torch_sigmoid z). split.
  { unfold MetaAconC.forward. rewrite Hy1. simpl. rewrite Hy. simpl.
    rewrite Hz1. simpl. rewrite Hz. exact Hout. }
  split; [done |]. split; [done |].
  intros i j k l xv a b be Hxv Ha Hb Hbe.
  split.
  { unfold torch_sigmoid in Hbe. rewrite tget_tmap in Hbe.
    destruct (tget z [i; j; 0; 0]%nat) as [zv |]; simpl in Hbe; [| done].
    injection Hbe as <-. apply sigmoid_range. }
  split; [apply sigmoid_range |].
  destruct (tget_same_shape x out _ [i; j; k; l] Hx Hsout (ex_intro _ xv Hxv))
    as [v Hv].
  destruct (Hinv _ _ Hv) as (i' & j' & k' & l' & xv' & a' & b' & be' & Hidx & Hxv'
                             & Ha' & Hb' & Hbe' & ->).
  injection Hidx as <- <- <- <-.
  rewrite (bget_gate (torch_sigmoid z) n c i j k l be Hsb Hbe) in Hbe'.
  rewrite Hv. f_equal.
  assert (xv' = xv) as -> by congruence. assert (a' = a) as -> by congruence.
  assert (b' = b) as -> by congruence. assert (be' = be) as -> by congruence.
  ring.
Qed.

Lemma metaaconc_forward_convex_combination_witness :
  exists out,
    MetaAconC.forward
      {| MetaAconC.p1 := Dim [Dim [Dim [Dim [Scalar 2]]; Dim [Dim [Scalar 1]]]];
         MetaAconC.p2 := Dim [Dim [Dim [Dim [Scalar 0]]; Dim [Dim [Scalar 3]]]];
         MetaAconC.fc1 := fun t => Some t;
         MetaAconC.fc2 := fun t => Some t |}
      (Dim [Dim [Dim [Dim [Scalar 1; Scalar (-1)]]; Dim [Dim [Scalar 4; Scalar 5]]]])
    = Some out /\
    has_shape out [1; 2; 1; 2]%nat = true.
Proof.
  destruct (metaaconc_forward_convex_combination
              {| MetaAconC.p1 := Dim [Dim [Dim [Dim [Scalar 2]]; Dim [Dim [Scalar 1]]]];
                 MetaAconC.p2 := Dim [Dim [Dim [Dim [Scalar 0]]; Dim [Dim [Scalar 3]]]];
                 MetaAconC.fc1 := fun t => Some t;
                 MetaAconC.fc2 := fun t => Some t |}
              (Dim [Dim [Dim [Dim [Scalar 1; Scalar (-1)]]; Dim [Dim [Scalar 4; Scalar 5]]]])
              1%nat 2%nat 1%nat 2%nat
              ltac:(lia) ltac:(lia) ltac:(lia) ltac:(lia)
              ltac:(reflexivity) ltac:(reflexivity)
              ltac:(intros y Hy; exists y, y; repeat split; exact Hy)
              ltac:(reflexivity))
    as (out & beta & Hout & Hsout & _).
  exists out. split; [exact Hout | exact Hsout].
Defined.

End ActivationExtras.


(** ** More facts about the upload route *)

Module AppExtras.
Import App AppFacts.

Section Extras.
Context `{Env}.

Implicit Types (form : gmap string string) (st : State).

(** X12. The handler reads three form fields and no other: setting any
    other field changes neither the result nor the state. *)
Theorem upload_ignores_other_fields form st (k v : string) :
  k <> "re_conf" -> k <> "imageBase64Code" -> k <> "imageLink" ->
  upload (<[k := v]> form) st = upload form st.
Proof.
  intros H1 H2 H3. unfold upload.
  by rewrite (lookup_insert_ne form k "re_conf" v H1),
    (lookup_insert_ne form k "imageBase64Code" v H2),
    (lookup_insert_ne form k "imageLink" v H3).
Qed.

(** X13. An empty [imageLink] counts as no [imageLink]: the handler then
    takes the base64 branch. *)
Theorem upload_empty_link_is_no_link form st :
  upload (<["imageLink" := ""]> form) st = upload (delete "imageLink" form) st.
Proof.
  unfold upload.
  rewrite (lookup_insert_ne form "imageLink" "re_conf") by done.
  rewrite (lookup_insert_ne form "imageLink" "imageBase64Code") by done.
  rewrite (lookup_delete_ne form "imageLink" "re_conf") by done.
  rewrite (lookup_delete_ne form "imageLink" "imageBase64Code") by done.
  by rewrite lookup_insert_eq, lookup_delete_eq.
Qed.

(** X14. A request with an acceptable [re_conf] but no image at all (no or
    empty [imageLink], no [imageBase64Code]) ends with the [TypeError] of
    [base64.b64decode(None)]; nothing was fetched, written or detected. *)
Theorem upload_without_image form st (c : PyFloat) :
  py_float (form !! "re_conf") = inr c ->
  truthy (form !! "imageLink") = false ->
  form !! "imageBase64Code" = None ->
  upload form st = (inl TypeError, st).
Proof.
  intros Hc Ht Hf.
  unfold upload, receive_image, mbind, M_bind, mret, M_ret, pure_call, world_call.
  by rewrite Hc, Ht, Hf.
Qed.

(** X15. If [float], the receive step, the detector and the three
    conversions of its image all return normally, the handler returns the
    response built from the detector's results, and the state is the one
    the detector left, with its call recorded last. *)
Theorem upload_succeeds form st (c : PyFloat) (st1 : State)
    (image_array rgb : NdArray) (re_label : string) (num : Z) (w : World)
    (img : Image) (jpeg : list Byte.byte) :
  py_float (form !! "re_conf") = inr c ->
  receive_image (form !! "imageBase64Code") (form !! "imageLink") st = (inr (), st1) ->
  app_detect c (world st1) = (inr (image_array, re_label, num), w) ->
  cvtColor_BGR2RGB image_array = inr rgb ->
  Image_fromarray_RGB rgb = inr img ->
  save_JPEG img = inr jpeg ->
  upload form st
  = (inr {[ "image_info" := JStr (b64encode_ascii jpeg);
            "re_label" := JStr re_label;
            "num" := JInt num ]},
     {| world := w; calls := calls st1 ++ [Call_app_detect c] |}).
Proof.
  intros Hc Hrecv Hdet Hrgb Himg Hjpeg.
  unfold upload, mbind, M_bind. unfold pure_call at 1. rewrite Hc, Hrecv.
  unfold world_call, pure_call, mret, M_ret.
  by rewrite Hdet, Hrgb, Himg, Hjpeg.
Qed.

(** X16. The result of [cv2.imwrite] is not looked at: when it returns
    without raising, whether it reports success or failure, the handler goes
    on to the detector on the disk as [cv2.imwrite] left it and returns the
    detector's response. *)
Theorem upload_ignores_imwrite_result form st (c : PyFloat)
    (raw : list Byte.byte) (image : Image) (arr image_array rgb : NdArray)
    (b : bool) (w w' : World) (re_label : string) (num : Z)
    (img : Image) (jpeg : list Byte.byte) :
  py_float (form !! "re_conf") = inr c ->
  truthy (form !! "imageLink") = false ->
  base64_b64decode (form !! "imageBase64Code") = inr raw ->
  Image_open raw = inr image ->
  cvtColor_BGR2RGB (np_asarray image) = inr arr ->
  imwrite (father_path +:+ "/mydata/images/test/1.png") arr (world st) = (inr b, w) ->
  app_detect c w = (inr (image_array, re_label, num), w') ->
  cvtColor_BGR2RGB image_array = inr rgb ->
  Image_fromarray_RGB rgb = inr img ->
  save_JPEG img = inr jpeg ->
  upload form st
  = (inr {[ "image_info" := JStr (b64encode_ascii jpeg);
            "re_label" := JStr re_label;
            "num" := JInt num ]},
     {| world := w';
        calls := calls st
                 ++ [Call_imwrite (father_path +:+ "/mydata/images/test/1.png") arr;
                     Call_app_detect c] |}).
Proof.
  intros Hc Ht Hraw Hopen Harr Hwrite Hdet Hrgb Himg Hjpeg.
  unfold upload, receive_image, mbind, M_bind, mret, M_ret, pure_call, world_call.
  rewrite Hc, Ht, Hraw, Hopen, Harr. simpl. rewrite Hwrite. simpl.
  rewrite Hdet, Hrgb, Himg, Hjpeg. by rewrite <- app_assoc.
Qed.

(** X17. Nothing is undone when the detector raises after the image was
    written: the handler ends with the detector's exception, and the state
    is the one the detector left on top of the write. *)
Theorem upload_keeps_write_on_detector_fault form st (c : PyFloat)
    (raw : list Byte.byte) (image : Image) (arr : NdArray)
    (b : bool) (w w' : World) (e : Exc) :
  py_float (form !! "re_conf") = inr c ->
  truthy (form !! "imageLink") = false ->
  base64_b64decode (form !! "imageBase64Code") = inr raw ->
  Image_open raw = inr image ->
  cvtColor_BGR2RGB (np_asarray image) = inr arr ->
  imwrite (father_path +:+ "/mydata/images/test/1.png") arr (world st) = (inr b, w) ->
  app_detect c w = (inl e, w') ->
  upload form st
  = (inl e,
     {| world := w';
        calls := calls st
                 ++ [Call_imwrite (father_path +:+ "/mydata/images/test/1.png") arr;
                     Call_app_detect c] |}).
Proof.
  intros Hc Ht Hraw Hopen Harr Hwrite Hdet.
  unfold upload, receive_image, mbind, M_bind, mret, M_ret, pure_call, world_call.
  rewrite Hc, Ht, Hraw, Hopen, Harr. simpl. rewrite Hwrite. simpl.
  rewrite Hdet. by rewrite <- app_assoc.
Qed.

(** X18. One run of the handler makes at most two outside calls, never both
    a fetch and a write.  The detector is called at most once: when it is
    called, the calls of the run are one fetch or one write followed by that
    one detector call, its argument is the value [float] made of [re_conf],
    and the receive step returned normally. *)
Theorem upload_call_discipline form st :
  exists new,
    calls (upload form st).2 = calls st ++ new /\
    (length new <= 2)%nat /\
    (forall url path img,
       Call_requests_get url ∈ new -> Call_imwrite path img ∉ new) /\
    (forall c, Call_app_detect c ∈ new ->
       py_float (form !! "re_conf") = inr c /\
       (exists first,
          new = [first; Call_app_detect c] /\
          ((exists url, first = Call_requests_get url) \/
           (exists path img, first = Call_imwrite path img))) /\
       (receive_image (form !! "imageBase64Code") (form !! "imageLink") st).1
       = inr ()).
Proof.
  unfold upload, mbind, M_bind. unfold pure_call at 1.
  destruct (py_float (form !! "re_conf")) as [e | c]; simpl.
  { exists []. rewrite app_nil_r. split; [done |]. split; [simpl; lia |].
    split; intros; by apply elem_of_nil in H0. }
  destruct (receive_image_calls (form !! "imageBase64Code") (form !! "imageLink") st)
    as (rnew & Hrnew & Hlink & Hfile).
  assert (exists first, rnew = [] \/ rnew = [first] /\
            (forall c', first <> Call_app_detect c') /\
            ((exists url, first = Call_requests_get url) \/
             (exists path img, first = Call_imwrite path img))) as (first & Hshape).
  { destruct (truthy (form !! "imageLink")).
    - exists (Call_requests_get (default "" (form !! "imageLink"))). right.
      split; [by apply Hlink |]. split; [done |]. left. by eexists.
    - destruct (Hfile eq_refl) as [-> | [img ->]].
      + exists (Call_app_detect c). by left.
      + eexists. right. split; [done |]. split; [done |]. right. by eexists _, _. }
  destruct (receive_image _ _ st) as [[e | []] st1] eqn:Hrecv; simpl in *.
  - exists rnew. split; [done |].
    destruct Hshape as [-> | (-> & Hnd & Hkind)].
    + split; [simpl; lia |]. split; intros; by apply elem_of_nil in H0.
    + split; [simpl; lia |]. split.
      * intros url path img Hg Hw.
        apply list_elem_of_singleton in Hg. apply list_elem_of_singleton in Hw.
        congruence.
      * intros c' Hin. apply list_elem_of_singleton in Hin.
        by destruct (Hnd c').
  - match goal with
    | |- exists new, calls (snd ?X) = _ /\ _ =>
        assert (calls (snd X) = calls st1 ++ [Call_app_detect c]) as Hcalls
    end.
    { unfold mbind, M_bind, mret, M_ret, world_call, pure_call.
      destruct (app_detect c (world st1)) as [[e | [[image_array re_label] num]] w];
        simpl; [done |].
      destruct (cvtColor_BGR2RGB image_array); [done |].
      destruct (Image_fromarray_RGB _); [done |].
      by destruct (save_JPEG _). }
    exists (rnew ++ [Call_app_detect c]). split.
    { rewrite Hcalls, Hrnew. by rewrite <- app_assoc. }
    destruct Hshape as [-> | (-> & Hnd & Hkind)].
    + (* the receive step made no call: it can only have failed *)
      exfalso. clear Hcalls.
      unfold receive_image, mbind, M_bind, mret, M_ret, pure_call, world_call in Hrecv.
      destruct (truthy (form !! "imageLink")).
      * specialize (Hlink eq_refl). done.
      * destruct (base64_b64decode _); [done |].
        destruct (Image_open _); [done |].
        destruct (cvtColor_BGR2RGB _); [done |].
        destruct (imwrite _ _ _) as [[? | ?] ?]; [done |].
        injection Hrecv as <-. simpl in Hrnew.
        apply (f_equal length) in Hrnew. rewrite !length_app in Hrnew.
        simpl in Hrnew. lia.
    + split; [simpl; lia |]. split.
      * intros url path img Hg Hw. simpl in Hg, Hw.
        apply elem_of_cons in Hg as [Hg | Hg];
          [| by apply list_elem_of_singleton in Hg].
        apply elem_of_cons in Hw as [Hw | Hw];
          [| by apply list_elem_of_singleton in Hw].
        congruence.
      * intros c' Hin. simpl in Hin.
        apply elem_of_cons in Hin as [Hin | Hin]; [by destruct (Hnd c') |].
        apply list_elem_of_singleton in Hin. injection Hin as ->.
        split; [done |]. split; [by exists first | done].
Qed.

End Extras.

(** *** Runs on the stand-in environments *)

Lemma upload_ignores_other_fields_witness :
  @upload demo_env (<["user" := "ann"]> base64_form) demo_state
  = @upload demo_env base64_form demo_state.
Proof.
  exact (@upload_ignores_other_fields demo_env base64_form demo_state "user" "ann"
           ltac:(done) ltac:(done) ltac:(done)).
Defined.

Lemma upload_without_image_witness :
  @upload demo_env {[ "re_conf" := "0.25"; "imageLink" := "" ]} demo_state
  = (inl "TypeError", demo_state).
Proof.
  exact (@upload_without_image demo_env
           {[ "re_conf" := "0.25"; "imageLink" := "" ]} demo_state 25%Z
           eq_refl eq_refl eq_refl).
Defined.

Lemma upload_succeeds_witness :
  @upload demo_env link_form demo_state
  = (inr {[ "image_info" := JStr "AQ==";
            "re_label" := JStr "person";
            "num" := JInt 1 ]},
     {| world := demo_disk : @World demo_env;
        calls := [@Call_requests_get demo_env "http://cam/1.jpg";
                  @Call_app_detect demo_env 25%Z] |}).
Proof.
  exact (@upload_succeeds demo_env link_form demo_state 25%Z
           {| world := demo_disk : @World demo_env;
              calls := [@Call_requests_get demo_env "http://cam/1.jpg"] |}
           [Byte.x01] [Byte.x01] "person" 1%Z demo_disk [Byte.x01] [Byte.x01]
           eq_refl eq_refl eq_refl eq_refl eq_refl eq_refl).
Defined.

(** The disk refuses the write, the detector reports on the old image
    [x02]. *)
Lemma upload_ignores_imwrite_result_witness :
  @upload readonly_env base64_form readonly_state
  = (inr {[ "image_info" := JStr "Ag==";
            "re_label" := JStr "person";
            "num" := JInt 1 ]},
     {| world := world readonly_state;
        calls := [@Call_imwrite readonly_env "/srv/app/mydata/images/test/1.png"
                    [Byte.x01];
                  @Call_app_detect readonly_env 25%Z] |}).
Proof.
  exact (@upload_ignores_imwrite_result readonly_env base64_form readonly_state 25%Z
           [Byte.x01] [Byte.x01] [Byte.x01] [Byte.x02] [Byte.x02] false
           (world readonly_state) (world readonly_state) "person" 1%Z
           [Byte.x02] [Byte.x02]
           eq_refl eq_refl eq_refl eq_refl eq_refl eq_refl eq_refl eq_refl eq_refl
           eq_refl).
Defined.

Lemma upload_keeps_write_on_detector_fault_witness :
  @upload readonly_env base64_form readonly_empty_state
  = (inl "no images",
     {| world := world readonly_empty_state;
        calls := [@Call_imwrite readonly_env "/srv/app/mydata/images/test/1.png"
                    [Byte.x01];
                  @Call_app_detect readonly_env 25%Z] |}).
Proof.
  exact (@upload_keeps_write_on_detector_fault readonly_env base64_form
           readonly_empty_state 25%Z [Byte.x01] [Byte.x01] [Byte.x01] false
           (world readonly_empty_state) (world readonly_empty_state) "no images"
           eq_refl eq_refl eq_refl eq_refl eq_refl eq_refl eq_refl).
Defined.

End AppExtras.
